(** * iox/reader.go: channel-backed readers

    A shallow embedding of package [iox] (file [reader.go]) and the
    properties of its channel-to-stream adapters.

    Conventions of the embedding.
    - A Go [string] is a [String.string] (a sequence of 8-bit characters);
      [[]byte(str)] is [list_byte_of_string].
    - A [[]byte] slice is the list of its visible elements.  Every slice
      expression of the file has its upper bound within the length of the
      operand, so the capacity beyond the length is never consulted; the
      bound check [0 <= low <= high <= cap] of a slice expression is kept
      and raises the run-time panic it raises in Go.
    - The caller's buffer [p], the residual [r.buf] and the chunks still
      in the channel do not overlap, and a producer does not write to a
      byte slice after sending it; so the residual of the byte adapters,
      which shares the array of the chunk received, can be held by value.
    - Lengths and byte counts are [nat]: the Go [int] results of [len] and
      [copy] are non-negative and cannot wrap for slices that exist.
    - A channel is the queue of values already sent and not yet received,
      with its closed flag.  No send happens during a read, so a receive on
      an open channel with an empty queue blocks the caller for good.
    - [Read] and [Close] mutate the adapter, the caller's buffer and the
      channel and may panic; they are written in a state monad whose
      result is a value, a panic or a blocked goroutine.  The state
      survives a panic, as it does in Go for a caller that recovers. *)

From Stdlib Require Import String.
From Stdlib Require Import Strings.Byte.
From Stdlib Require Import List Arith Bool Lia.
Import ListNotations.

Set Implicit Arguments.

(** ** Go run-time values shared by the four adapters *)

(** [error] values returned by [Read] and [Close]: [nil] or [io.EOF]. *)
Inductive error : Type :=
| nil_error
| io_EOF.

(** Dynamic types an [interface{}] value can hold, as far as the type
    switch of [ReaderFromInterface] tells them apart. *)
Inductive chan_dir : Type :=
| bidirectional   (* chan T *)
| recv_only       (* <-chan T *)
| send_only.      (* chan<- T *)

Inductive gotype : Type :=
| t_string                                 (* string *)
| t_bytes                                  (* []byte *)
| t_Buffer                                 (* bytes.Buffer *)
| t_chan (d : chan_dir) (elem : gotype)    (* a channel type *)
| t_other (name : string).                 (* any other type *)

(** Values of a type: the text of a string, the elements of a slice, the
    contents of a buffer, the identity of a channel or of another object. *)
Definition denote (t : gotype) : Type :=
  match t with
  | t_string => string
  | t_bytes => list byte
  | t_Buffer => list byte
  | t_chan _ _ => nat
  | t_other _ => nat
  end.

(** An [interface{}] value: nil, or a dynamic type with a value of it. *)
Inductive iface : Type :=
| nil_iface
| box (t : gotype) (v : denote t).

Definition dynamic_type (x : iface) : option gotype :=
  match x with
  | nil_iface => None
  | box t _ => Some t
  end.

(** Modelled from the spec: the declaration of the fault type
    [ReaderUnrefinableFromInterface] is not in [reader.go]; the spec calls
    it a typed fault carrying the rejected input, and the composite
    literal [ReaderUnrefinableFromInterface{wat: y}] gives its field. *)
Record ReaderUnrefinableFromInterface : Type := {
  wat : iface
}.

(** Run-time panics raised by the operations used in the file, and the
    value [ReaderFromInterface] panics with. *)
Inductive panic : Type :=
| slice_bounds_out_of_range (low high : nat)
| close_of_closed_channel
| panic_with (e : ReaderUnrefinableFromInterface).

(** What one channel operation did, in program order. *)
Inductive event : Type :=
| EvRecv (open : bool)
| EvClose.

(** Outcome of a call. *)
Inductive result (A : Type) : Type :=
| Val (a : A)
| Panics (e : panic)
| Blocks.

Arguments Panics {A} e.
Arguments Blocks {A}.

(** ** Slices *)

(** [s[low:high]]: panics unless [low <= high <= len(s)]. *)
Definition slice (s : list byte) (low high : nat) : result (list byte) :=
  if (low <=? high) && (high <=? length s)
  then Val (firstn (high - low) (skipn low s))
  else Panics (slice_bounds_out_of_range low high).

(** [s[low:]] is [s[low:len(s)]] and [s[:high]] is [s[0:high]]. *)
Definition slice_from (s : list byte) (low : nat) : result (list byte) :=
  slice s low (length s).

Definition slice_to (s : list byte) (high : nat) : result (list byte) :=
  slice s 0 high.

(** The built-in [copy(dst, src)]: copies [min(len(dst), len(src))]
    elements to the front of [dst]; gives the count and the new [dst]. *)
Definition copy (dst src : list byte) : nat * list byte :=
  let n := Nat.min (length dst) (length src) in
  (n, firstn n src ++ skipn n dst).

(** ** Channels and the state of a call *)

Section Machine.

(** Element type of the channel and its zero value. *)
Variable T : Type.
Variable zero : T.

Record chan : Type := mkChan {
  queue  : list T;
  closed : bool
}.

(** The adapter struct ([ch], [buf]), the state of the channel [ch]
    refers to, the caller's buffer [p], and the channel operations done
    so far. *)
Record heap : Type := mkHeap {
  r_ch  : chan;
  r_buf : list byte;
  p     : list byte;
  trace : list event
}.

Definition M (A : Type) : Type := heap -> result A * heap.

Definition ret {A : Type} (a : A) : M A := fun h => (Val a, h).

Definition bind {A B : Type} (m : M A) (f : A -> M B) : M B :=
  fun h =>
    match m h with
    | (Val a, h') => f a h'
    | (Panics e, h') => (Panics e, h')
    | (Blocks, h') => (Blocks, h')
    end.

(** Lifts an operation that only computes (a slice expression). *)
Definition lift {A : Type} (r : result A) : M A := fun h => (r, h).

Definition get_buf : M (list byte) := fun h => (Val (r_buf h), h).

Definition get_p : M (list byte) := fun h => (Val (p h), h).

Definition set_buf (b : list byte) : M unit :=
  fun h => (Val tt, mkHeap (r_ch h) b (p h) (trace h)).

(** [copy(p, src)]. *)
Definition copy_p (src : list byte) : M nat :=
  fun h =>
    let '(n, p') := copy (p h) src in
    (Val n, mkHeap (r_ch h) (r_buf h) p' (trace h)).

(** [v, open := <-r.ch]. *)
Definition recv : M (T * bool) :=
  fun h =>
    match queue (r_ch h) with
    | v :: q =>
        (Val (v, true),
         mkHeap (mkChan q (closed (r_ch h))) (r_buf h) (p h)
                (trace h ++ [EvRecv true]))
    | [] =>
        if closed (r_ch h)
        then (Val (zero, false),
              mkHeap (r_ch h) (r_buf h) (p h) (trace h ++ [EvRecv false]))
        else (Blocks, h)
    end.

(** [close(r.ch)]. *)
Definition close_ch : M unit :=
  fun h =>
    if closed (r_ch h)
    then (Panics close_of_closed_channel, h)
    else (Val tt,
          mkHeap (mkChan (queue (r_ch h)) true) (r_buf h) (p h)
                 (trace h ++ [EvClose])).

End Machine.

Arguments mkChan {T} queue closed.
Arguments mkHeap {T} r_ch r_buf p trace.
Arguments ret {T A} a.
Arguments bind {T A B} m f.
Arguments lift {T A} r.
Arguments get_buf {T}.
Arguments get_p {T}.
Arguments set_buf {T} b.
Arguments copy_p {T} src.
Arguments close_ch {T}.

Declare Scope go_scope.
Delimit Scope go_scope with go.
Notation "x <- m ;; k" := (bind m (fun x => k))
  (at level 61, m at next level, right associativity) : go_scope.
Notation "' pat <- m ;; k" := (bind m (fun x => match x with pat => k end))
  (at level 61, pat pattern, m at next level, right associativity) : go_scope.
Notation "m ;;; k" := (bind m (fun _ => k))
  (at level 61, right associativity) : go_scope.
Open Scope go_scope.

(** A statement either falls through to the next one or returns from the
    function. *)
Inductive flow (A R : Type) : Type :=
| Next (a : A)
| Return (r : R).

Arguments Next {A R} a.
Arguments Return {A R} r.

(** ** The four adapters *)

(** [func (r *readerChanString) Read(p []byte) (n int, err error)] *)
Definition readerChanString_Read : M string (nat * error) :=
  buf <- get_buf ;;
  p0 <- get_p ;;
  f <- (if length buf =? 0 then
          ret (Next 0)
        else if length buf <=? length p0 then
          w <- copy_p buf ;;
          b <- lift (slice buf 0 0) ;;
          set_buf b ;;;
          ret (Next w)
        else
          s <- lift (slice_to buf (length p0)) ;;
          w <- copy_p s ;;
          b <- lift (slice buf (length p0) 0) ;;
          set_buf b ;;;
          ret (Return (w, nil_error))) ;;
  match f with
  | Return r => ret r
  | Next w =>
      '(str, open) <- recv ""%string ;;
      let bytes := list_byte_of_string str in
      w2 <- copy_p bytes ;;
      b <- lift (slice_from bytes w2) ;;
      set_buf b ;;;
      buf' <- get_buf ;;
      if open || (0 <? length buf')
      then ret (w + w2, nil_error)
      else ret (w + w2, io_EOF)
  end.

(** [func (r *readerChanString) Close() error] *)
Definition readerChanString_Close : M string error :=
  close_ch ;;;
  ret nil_error.

(** [func (r *readerChanReadonlyString) Read(p []byte) (n int, err error)] *)
Definition readerChanReadonlyString_Read : M string (nat * error) :=
  buf <- get_buf ;;
  p0 <- get_p ;;
  f <- (if length buf =? 0 then
          ret (Next 0)
        else if length buf <=? length p0 then
          w <- copy_p buf ;;
          b <- lift (slice buf 0 0) ;;
          set_buf b ;;;
          ret (Next w)
        else
          s <- lift (slice_to buf (length p0)) ;;
          w <- copy_p s ;;
          b <- lift (slice buf (length p0) 0) ;;
          set_buf b ;;;
          ret (Return (w, nil_error))) ;;
  match f with
  | Return r => ret r
  | Next w =>
      '(str, open) <- recv ""%string ;;
      let bytes := list_byte_of_string str in
      w2 <- copy_p bytes ;;
      b <- lift (slice_from bytes w2) ;;
      set_buf b ;;;
      buf' <- get_buf ;;
      if open || (0 <? length buf')
      then ret (w + w2, nil_error)
      else ret (w + w2, io_EOF)
  end.

(** [func (r *readerChanByteSlice) Read(p []byte) (n int, err error)] *)
Definition readerChanByteSlice_Read : M (list byte) (nat * error) :=
  buf <- get_buf ;;
  p0 <- get_p ;;
  f <- (if length buf =? 0 then
          ret (Next 0)
        else if length buf <=? length p0 then
          w <- copy_p buf ;;
          b <- lift (slice buf 0 0) ;;
          set_buf b ;;;
          ret (Next w)
        else
          s <- lift (slice_to buf (length p0)) ;;
          w <- copy_p s ;;
          b <- lift (slice buf (length p0) 0) ;;
          set_buf b ;;;
          ret (Return (w, nil_error))) ;;
  match f with
  | Return r => ret r
  | Next w =>
      '(bytes, open) <- recv [] ;;
      w2 <- copy_p bytes ;;
      b <- lift (slice_from bytes w2) ;;
      set_buf b ;;;
      buf' <- get_buf ;;
      if open || (0 <? length buf')
      then ret (w + w2, nil_error)
      else ret (w + w2, io_EOF)
  end.

(** [func (r *readerChanByteSlice) Close() error] *)
Definition readerChanByteSlice_Close : M (list byte) error :=
  close_ch ;;;
  ret nil_error.

(** [func (r *readerChanReadonlyByteSlice) Read(p []byte) (n int, err error)] *)
Definition readerChanReadonlyByteSlice_Read : M (list byte) (nat * error) :=
  buf <- get_buf ;;
  p0 <- get_p ;;
  f <- (if length buf =? 0 then
          ret (Next 0)
        else if length buf <=? length p0 then
          w <- copy_p buf ;;
          b <- lift (slice buf 0 0) ;;
          set_buf b ;;;
          ret (Next w)
        else
          s <- lift (slice_to buf (length p0)) ;;
          w <- copy_p s ;;
          b <- lift (slice buf (length p0) 0) ;;
          set_buf b ;;;
          ret (Return (w, nil_error))) ;;
  match f with
  | Return r => ret r
  | Next w =>
      '(bytes, open) <- recv [] ;;
      w2 <- copy_p bytes ;;
      b <- lift (slice_from bytes w2) ;;
      set_buf b ;;;
      buf' <- get_buf ;;
      if open || (0 <? length buf')
      then ret (w + w2, nil_error)
      else ret (w + w2, io_EOF)
  end.

(** ** Calls made by a consumer *)

(** One call [m] with the destination buffer [dst] on the adapter and
    channel of [h]. *)
Definition call {T A : Type} (m : M T A) (dst : list byte) (h : heap T)
  : result A * heap T :=
  m (mkHeap (r_ch h) (r_buf h) dst (trace h)).

(** The bytes a call hands to its caller: [p[:n]]. *)
Definition delivered (r : result (nat * error) * list byte) : list byte :=
  match r with
  | (Val (n, _), p') => firstn n p'
  | _ => []
  end.

(** A sequence of [Read] calls, one per destination buffer, each paired
    with the contents of its buffer after the call; a panic or a blocked
    receive ends the sequence. *)
Fixpoint reads {T : Type} (Read : M T (nat * error))
    (dsts : list (list byte)) (h : heap T)
  : list (result (nat * error) * list byte) * heap T :=
  match dsts with
  | [] => ([], h)
  | dst :: dsts' =>
      match call Read dst h with
      | (Val r, h') =>
          let '(rs, h'') := reads Read dsts' h' in
          ((Val r, p h') :: rs, h'')
      | (r, h') => ([(r, p h')], h')
      end
  end.

(** A new adapter on a channel: [&readerChanString{ch: ch}], [buf] nil. *)
Definition new_adapter {T : Type} (ch : chan T) : heap T :=
  mkHeap ch [] [] [].

(** ** The front door *)

(** The readers [ReaderFromInterface] can return. *)
Inductive reader : Type :=
| strings_NewReader (str : string)
| bytes_NewReader (bats : list byte)
| the_reader (y : iface)                   (* y itself *)
| Buffer_pointer (y : list byte)           (* &y *)
| readerChanString (ch : nat) (buf : list byte)
| readerChanReadonlyString (ch : nat) (buf : list byte)
| readerChanByteSlice (ch : nat) (buf : list byte)
| readerChanReadonlyByteSlice (ch : nat) (buf : list byte).

Definition ReaderFromString (str : string) : reader :=
  strings_NewReader str.

Definition ReaderFromByteSlice (bats : list byte) : reader :=
  bytes_NewReader bats.

Definition ReaderFromChanString (ch : nat) : reader :=
  readerChanString ch [].

Definition ReaderFromChanReadonlyString (ch : nat) : reader :=
  readerChanReadonlyString ch [].

Definition ReaderFromChanByteSlice (ch : nat) : reader :=
  readerChanByteSlice ch [].

Definition ReaderFromChanReadonlyByteSlice (ch : nat) : reader :=
  readerChanReadonlyByteSlice ch [].

Definition chan_dir_eqb (d1 d2 : chan_dir) : bool :=
  match d1, d2 with
  | bidirectional, bidirectional => true
  | recv_only, recv_only => true
  | send_only, send_only => true
  | _, _ => false
  end.

(** The cases of a type switch: [x.(T)] for the types of the switch. *)
Definition as_string (x : iface) : option string :=
  match x with
  | box t_string y => Some y
  | _ => None
  end.

Definition as_bytes (x : iface) : option (list byte) :=
  match x with
  | box t_bytes y => Some y
  | _ => None
  end.

Definition as_Buffer (x : iface) : option (list byte) :=
  match x with
  | box t_Buffer y => Some y
  | _ => None
  end.

Definition as_chan_string (d : chan_dir) (x : iface) : option nat :=
  match x with
  | box (t_chan d' t_string) y => if chan_dir_eqb d d' then Some y else None
  | _ => None
  end.

Definition as_chan_bytes (d : chan_dir) (x : iface) : option nat :=
  match x with
  | box (t_chan d' t_bytes) y => if chan_dir_eqb d d' then Some y else None
  | _ => None
  end.

Section FrontDoor.

(** Which dynamic types have [Read(p []byte) (n int, err error)] in
    their method set; it depends on the declarations of the program. *)
Variable implements_io_Reader : gotype -> bool.

Definition as_io_Reader (x : iface) : option iface :=
  match x with
  | box t _ => if implements_io_Reader t then Some x else None
  | nil_iface => None
  end.

(** [func ReaderFromInterface(x interface{}) io.Reader]: the cases are
    tried in the order of the switch. *)
Definition ReaderFromInterface (x : iface) : result reader :=
  match as_string x with Some y => Val (ReaderFromString y) | None =>
  match as_bytes x with Some y => Val (ReaderFromByteSlice y) | None =>
  match as_io_Reader x with Some y => Val (the_reader y) | None =>
  match as_Buffer x with Some y => Val (Buffer_pointer y) | None =>
  match as_chan_string recv_only x with
  | Some y => Val (ReaderFromChanReadonlyString y) | None =>
  match as_chan_string bidirectional x with
  | Some y => Val (ReaderFromChanString y) | None =>
  match as_chan_bytes recv_only x with
  | Some y => Val (ReaderFromChanReadonlyByteSlice y) | None =>
  match as_chan_bytes bidirectional x with
  | Some y => Val (ReaderFromChanByteSlice y) | None =>
  Panics (panic_with {| wat := x |})
  end end end end end end end end.

(** The shapes the documentation of [ReaderFromInterface] lists. *)
Definition supported (x : iface) : bool :=
  match dynamic_type x with
  | None => false
  | Some t_string => true
  | Some t_bytes => true
  | Some t_Buffer => true
  | Some (t_chan recv_only t_string) => true
  | Some (t_chan bidirectional t_string) => true
  | Some (t_chan recv_only t_bytes) => true
  | Some (t_chan bidirectional t_bytes) => true
  | Some t => implements_io_Reader t
  end.

End FrontDoor.

(** ** The algorithm the four [Read] methods share *)

Section Shared.

Variable T : Type.
Variable zero : T.
Variable to_bytes : T -> list byte.

(** The body common to the four [Read] methods, over the element type
    of the channel; each method is an instance of it (lemmas
    [readerChanString_Read_shared] and the like). *)
Definition chan_Read : M T (nat * error) :=
  buf <- get_buf ;;
  p0 <- get_p ;;
  f <- (if length buf =? 0 then
          ret (Next 0)
        else if length buf <=? length p0 then
          w <- copy_p buf ;;
          b <- lift (slice buf 0 0) ;;
          set_buf b ;;;
          ret (Next w)
        else
          s <- lift (slice_to buf (length p0)) ;;
          w <- copy_p s ;;
          b <- lift (slice buf (length p0) 0) ;;
          set_buf b ;;;
          ret (Return (w, nil_error))) ;;
  match f with
  | Return r => ret r
  | Next w =>
      '(v, open) <- recv zero ;;
      let bytes := to_bytes v in
      w2 <- copy_p bytes ;;
      b <- lift (slice_from bytes w2) ;;
      set_buf b ;;;
      buf' <- get_buf ;;
      if open || (0 <? length buf')
      then ret (w + w2, nil_error)
      else ret (w + w2, io_EOF)
  end.

End Shared.

(** ** Vocabulary of the statements *)

(** The bytes of a string literal. *)
Definition bs (s : string) : list byte := list_byte_of_string s.

(** The call returned, and returned [io.EOF]. *)
Definition signals_EOF {A : Type} (r : result (A * error)) : bool :=
  match r with
  | Val (_, io_EOF) => true
  | _ => false
  end.

(** The byte channel that carries the byte representations of the chunks
    of a text channel, and the state of a byte adapter that corresponds
    to the state of a text adapter. *)
Definition chan_bytes (c : chan string) : chan (list byte) :=
  mkChan (map list_byte_of_string (queue c)) (closed c).

Definition heap_bytes (h : heap string) : heap (list byte) :=
  mkHeap (chan_bytes (r_ch h)) (r_buf h) (p h) (trace h).

(** What a consumer sees when every call receives one chunk, of the
    bytes [chunks], and its buffer holds the whole chunk: the chunk at the
    front of the buffer, its length, and no [io.EOF]. *)
Definition one_chunk_per_call (chunks dsts : list (list byte))
  : list (result (nat * error) * list byte) :=
  map (fun cd : list byte * list byte =>
         (Val (length (fst cd), nil_error),
          fst cd ++ skipn (length (fst cd)) (snd cd)))
      (combine chunks dsts).

(** The state a [Read] leaves when it found the residual empty or fitting
    and received the chunk [bytes] from a channel left as [ch']. *)
Definition after_recv {T : Type} (h : heap T) (ch' : chan T)
    (bytes : list byte) (open : bool) : heap T :=
  let p1 := r_buf h ++ skipn (length (r_buf h)) (p h) in
  let w2 := Nat.min (length (p h)) (length bytes) in
  mkHeap ch' (skipn w2 bytes) (firstn w2 bytes ++ skipn w2 p1)
         (trace h ++ [EvRecv open]).

(** A call keeps clear of the two places where the residual goes wrong:
    it does not find a residual longer than its buffer (the branch of
    [r.buf[len(p):0]]), and it does not copy a residual and then a
    non-empty chunk to the start of the same buffer.  So the residual is
    empty, or it fits the buffer and what the receive gives is empty (an
    empty chunk, or nothing from a drained channel). *)
Definition clean_call {T : Type} (to_bytes : T -> list byte) (h : heap T)
  : bool :=
  match r_buf h with
  | [] => true
  | _ :: _ =>
      (length (r_buf h) <=? length (p h))
      && match queue (r_ch h) with
         | [] => true
         | v :: _ => length (to_bytes v) =? 0
         end
  end.

(** Every call of a sequence is such a call, in the state the calls
    before it have left. *)
Fixpoint clean_run {T : Type} (to_bytes : T -> list byte)
    (Read : M T (nat * error)) (dsts : list (list byte)) (h : heap T)
  : bool :=
  match dsts with
  | [] => true
  | dst :: dsts' =>
      clean_call to_bytes (mkHeap (r_ch h) (r_buf h) dst (trace h))
      && clean_run to_bytes Read dsts' (snd (call Read dst h))
  end.

(** The error a call returned, if it returned. *)
Definition outcome_error (r : result (nat * error) * list byte)
  : option error :=
  match fst r with
  | Val (_, e) => Some e
  | _ => None
  end.

(** ** Facts about slices and [copy] *)

Lemma slice_from_ok (s : list byte) (n : nat) :
  n <= length s -> slice_from s n = Val (skipn n s).
Proof.
  intros Hn. unfold slice_from, slice.
  assert (E1 : (n <=? length s) = true) by (apply Nat.leb_le; exact Hn).
  rewrite E1, Nat.leb_refl. simpl.
  rewrite firstn_all2; [reflexivity | rewrite length_skipn; lia].
Qed.

Lemma slice_to_ok (s : list byte) (n : nat) :
  n <= length s -> slice_to s n = Val (firstn n s).
Proof.
  intros Hn. unfold slice_to, slice. simpl.
  assert (E1 : (n <=? length s) = true) by (apply Nat.leb_le; exact Hn).
  rewrite E1, Nat.sub_0_r. reflexivity.
Qed.

Lemma slice_empty (s : list byte) : slice s 0 0 = Val [].
Proof. reflexivity. Qed.

Lemma slice_inverted (s : list byte) (low : nat) :
  0 < low -> slice s low 0 = Panics (slice_bounds_out_of_range low 0).
Proof.
  intros Hl. unfold slice.
  assert (E : (low <=? 0) = false) by (apply Nat.leb_gt; exact Hl).
  rewrite E. reflexivity.
Qed.

Lemma copy_count (dst src : list byte) :
  fst (copy dst src) = Nat.min (length dst) (length src).
Proof. reflexivity. Qed.

Lemma copy_length (dst src : list byte) :
  length (snd (copy dst src)) = length dst.
Proof.
  unfold copy. simpl. rewrite length_app, length_firstn, length_skipn. lia.
Qed.

Lemma copy_all (dst src : list byte) :
  length src <= length dst ->
  copy dst src = (length src, src ++ skipn (length src) dst).
Proof.
  intros Hle. unfold copy. rewrite Nat.min_r by exact Hle.
  rewrite firstn_all. reflexivity.
Qed.

Lemma copy_nothing (dst : list byte) : copy dst [] = (0, dst).
Proof. unfold copy. simpl. rewrite Nat.min_0_r. reflexivity. Qed.

(** ** One call of the shared algorithm, case by case *)

(** Unfolds the monad down to the record of the state. *)
Ltac go_unfold :=
  unfold bind, get_buf, get_p, copy_p, lift, set_buf, ret, recv, close_ch;
  cbn [r_buf p r_ch queue closed trace].

Ltac go_state := cbn [r_buf p r_ch queue closed trace].

Section SharedFacts.

Variable T : Type.
Variable zero : T.
Variable to_bytes : T -> list byte.
Hypothesis zero_empty : to_bytes zero = [].

(** Residual empty or fitting, a chunk is waiting: it is received and
    copied to the front of [p]. *)
Lemma chan_Read_chunk (h : heap T) (v : T) (q : list T) :
  length (r_buf h) <= length (p h) ->
  queue (r_ch h) = v :: q ->
  chan_Read zero to_bytes h =
    (Val (length (r_buf h) + Nat.min (length (p h)) (length (to_bytes v)),
          nil_error),
     after_recv h (mkChan q (closed (r_ch h))) (to_bytes v) true).
Proof.
  destruct h as [[qu cl] buf p0 tr]. go_state.
  intros Hfit Hq. subst qu.
  unfold chan_Read, after_recv. go_unfold.
  destruct (Nat.eqb_spec (length buf) 0) as [E0|E0].
  - apply length_zero_iff_nil in E0. subst buf.
    go_state. unfold copy at 1. go_state.
    rewrite slice_from_ok by apply Nat.le_min_r. reflexivity.
  - assert (E : (length buf <=? length p0) = true)
      by (apply Nat.leb_le; exact Hfit).
    rewrite E. go_state. rewrite (copy_all p0 buf Hfit), slice_empty. go_state.
    assert (L : length (buf ++ skipn (length buf) p0) = length p0)
      by (rewrite length_app, length_skipn; lia).
    unfold copy. go_state. rewrite L.
    rewrite slice_from_ok by apply Nat.le_min_r. reflexivity.
Qed.

(** Residual empty or fitting, channel closed and drained: the residual
    is delivered and the call returns [io.EOF]. *)
Lemma chan_Read_closed (h : heap T) :
  length (r_buf h) <= length (p h) ->
  queue (r_ch h) = [] ->
  closed (r_ch h) = true ->
  chan_Read zero to_bytes h =
    (Val (length (r_buf h), io_EOF),
     mkHeap (r_ch h) [] (r_buf h ++ skipn (length (r_buf h)) (p h))
            (trace h ++ [EvRecv false])).
Proof.
  destruct h as [[qu cl] buf p0 tr]. go_state.
  intros Hfit Hq Hc. subst qu cl.
  unfold chan_Read. go_unfold.
  destruct (Nat.eqb_spec (length buf) 0) as [E0|E0].
  - apply length_zero_iff_nil in E0. subst buf.
    go_state. rewrite zero_empty, copy_nothing. reflexivity.
  - assert (E : (length buf <=? length p0) = true)
      by (apply Nat.leb_le; exact Hfit).
    rewrite E. go_state. rewrite (copy_all p0 buf Hfit), slice_empty.
    go_state. rewrite zero_empty, copy_nothing. cbn.
    rewrite Nat.add_0_r. reflexivity.
Qed.

(** Residual empty or fitting, channel open and empty: the residual has
    been copied and cleared when the receive blocks. *)
Lemma chan_Read_blocks (h : heap T) :
  length (r_buf h) <= length (p h) ->
  queue (r_ch h) = [] ->
  closed (r_ch h) = false ->
  chan_Read zero to_bytes h =
    (Blocks,
     mkHeap (r_ch h) [] (r_buf h ++ skipn (length (r_buf h)) (p h))
            (trace h)).
Proof.
  destruct h as [[qu cl] buf p0 tr]. go_state.
  intros Hfit Hq Hc. subst qu cl.
  unfold chan_Read. go_unfold.
  destruct (Nat.eqb_spec (length buf) 0) as [E0|E0].
  - apply length_zero_iff_nil in E0. subst buf. reflexivity.
  - assert (E : (length buf <=? length p0) = true)
      by (apply Nat.leb_le; exact Hfit).
    rewrite E. go_state. rewrite (copy_all p0 buf Hfit), slice_empty. reflexivity.
Qed.

(** Residual longer than a non-empty [p]: [p] is filled from the front
    of the residual, then the slice expression [r.buf[len(p):0]]
    panics; the residual is left as it was and nothing is received. *)
Lemma chan_Read_undersized (h : heap T) :
  0 < length (p h) ->
  length (p h) < length (r_buf h) ->
  chan_Read zero to_bytes h =
    (Panics (slice_bounds_out_of_range (length (p h)) 0),
     mkHeap (r_ch h) (r_buf h) (firstn (length (p h)) (r_buf h)) (trace h)).
Proof.
  destruct h as [ch buf p0 tr]. go_state. intros Hpos Hlt.
  unfold chan_Read. go_unfold.
  destruct (Nat.eqb_spec (length buf) 0) as [E0|E0]; [lia|].
  assert (E : (length buf <=? length p0) = false)
    by (apply Nat.leb_gt; exact Hlt).
  rewrite E. go_state. rewrite slice_to_ok by lia. go_state.
  rewrite copy_all by (rewrite length_firstn; lia).
  rewrite slice_inverted by exact Hpos.
  rewrite length_firstn, Nat.min_l by lia.
  rewrite skipn_all, app_nil_r. reflexivity.
Qed.

(** Residual non-empty and [p] of length zero: nothing is copied,
    [r.buf[0:0]] empties the residual, nothing is received. *)
Lemma chan_Read_zero_cap (h : heap T) :
  p h = [] ->
  r_buf h <> [] ->
  chan_Read zero to_bytes h =
    (Val (0, nil_error), mkHeap (r_ch h) [] [] (trace h)).
Proof.
  destruct h as [ch buf p0 tr]. go_state. intros Hp Hbuf. subst p0.
  destruct buf as [|b buf]; [congruence|]. reflexivity.
Qed.

End SharedFacts.

(** Each method is the shared algorithm at its element type. *)
Lemma readerChanString_Read_shared :
  readerChanString_Read = chan_Read ""%string list_byte_of_string.
Proof. reflexivity. Qed.

Lemma readerChanReadonlyString_Read_shared :
  readerChanReadonlyString_Read = chan_Read ""%string list_byte_of_string.
Proof. reflexivity. Qed.

Lemma readerChanByteSlice_Read_shared :
  readerChanByteSlice_Read = chan_Read [] (fun bytes => bytes).
Proof. reflexivity. Qed.

Lemma readerChanReadonlyByteSlice_Read_shared :
  readerChanReadonlyByteSlice_Read = chan_Read [] (fun bytes => bytes).
Proof. reflexivity. Qed.

(** ** Sequences of calls *)

Lemma reads_returned {T : Type} (Read : M T (nat * error))
    (dst : list byte) (dsts : list (list byte)) (h h' : heap T)
    (r : nat * error) :
  call Read dst h = (Val r, h') ->
  fst (reads Read (dst :: dsts) h) = (Val r, p h') :: fst (reads Read dsts h').
Proof.
  intros E. cbn [reads]. rewrite E.
  destruct (reads Read dsts h') as [rs h'']. reflexivity.
Qed.

Lemma delivered_whole (c d : list byte) (e : error) :
  delivered (Val (length c, e), c ++ skipn (length c) d) = c.
Proof.
  cbn [delivered]. rewrite firstn_app, firstn_all, Nat.sub_diag.
  cbn [firstn]. apply app_nil_r.
Qed.

Lemma trace_grows (tr : list event) (e : event) : tr <> tr ++ [e].
Proof.
  intros E. apply (f_equal (@length event)) in E.
  rewrite length_app in E. cbn in E. lia.
Qed.

Section SequenceFacts.

Variable T : Type.
Variable zero : T.
Variable to_bytes : T -> list byte.
Hypothesis zero_empty : to_bytes zero = [].

Lemma reads_fitting (chunks : list T) (dsts : list (list byte)) :
  Forall2 (fun c d => length (to_bytes c) <= length d) chunks dsts ->
  forall (d_last p0 : list byte) (tr : list event),
    fst (reads (chan_Read zero to_bytes) (dsts ++ [d_last])
               (mkHeap (mkChan chunks true) [] p0 tr)) =
    one_chunk_per_call (map to_bytes chunks) dsts
      ++ [(Val (0, io_EOF), d_last)].
Proof.
  induction 1 as [|c d cs ds Hcd Hrest IH]; intros d_last p0 tr.
  - cbn [app reads]. unfold call. cbn [r_ch r_buf trace].
    rewrite (chan_Read_closed zero to_bytes zero_empty
               (mkHeap (mkChan [] true) [] d_last tr))
      by (try reflexivity; cbn; lia).
    reflexivity.
  - cbn [app]. erewrite reads_returned.
    2:{ unfold call. cbn [r_ch r_buf trace].
        apply chan_Read_chunk with (q := cs); [cbn; lia | reflexivity]. }
    unfold after_recv. cbn [r_ch r_buf p trace closed length app skipn].
    rewrite Nat.min_r by exact Hcd.
    rewrite skipn_all, firstn_all. cbn [Nat.add].
    rewrite IH. reflexivity.
Qed.

Lemma one_chunk_per_call_delivers (chunks : list T)
    (dsts : list (list byte)) :
  Forall2 (fun c d => length (to_bytes c) <= length d) chunks dsts ->
  concat (map delivered (one_chunk_per_call (map to_bytes chunks) dsts)) =
  concat (map to_bytes chunks).
Proof.
  unfold one_chunk_per_call.
  induction 1 as [|c d cs ds Hcd Hrest IH]; [reflexivity|].
  cbn [combine map concat fst snd]. rewrite delivered_whole, IH.
  reflexivity.
Qed.

End SequenceFacts.

(** ** End of stream *)

Section EndOfStream.

Variable T : Type.
Variable zero : T.
Variable to_bytes : T -> list byte.
Hypothesis zero_empty : to_bytes zero = [].

(** [io.EOF] is returned exactly by the calls whose receive found the
    channel closed and drained and that leave the residual empty. *)
Lemma chan_Read_EOF_iff (h : heap T) :
  signals_EOF (fst (chan_Read zero to_bytes h)) = true <->
  trace (snd (chan_Read zero to_bytes h)) = trace h ++ [EvRecv false] /\
  r_buf (snd (chan_Read zero to_bytes h)) = [].
Proof.
  destruct (le_lt_dec (length (r_buf h)) (length (p h))) as [Hfit|Hlt].
  - destruct (queue (r_ch h)) as [|v q] eqn:Hq.
    + destruct (closed (r_ch h)) eqn:Hc.
      * rewrite chan_Read_closed by assumption. cbn. tauto.
      * rewrite chan_Read_blocks by assumption. cbn. split.
        -- discriminate.
        -- intros [E _]. exfalso. exact (@trace_grows _ _ E).
    + rewrite (chan_Read_chunk zero to_bytes h Hfit Hq). cbn. split.
      * discriminate.
      * intros [E _]. apply app_inv_head in E. discriminate.
  - destruct (Nat.eq_dec (length (p h)) 0) as [Hz|Hnz].
    + apply length_zero_iff_nil in Hz.
      assert (Hne : r_buf h <> [])
        by (destruct (r_buf h); [cbn in Hlt; lia | discriminate]).
      rewrite chan_Read_zero_cap by assumption.
      cbn. split.
      * discriminate.
      * intros [E _]. exfalso. exact (@trace_grows _ _ E).
    + rewrite chan_Read_undersized by (assumption || lia).
      cbn. split.
      * discriminate.
      * intros [E _]. exfalso. exact (@trace_grows _ _ E).
Qed.

End EndOfStream.

(** ** Text channels and byte channels *)

Lemma Read_text_as_bytes (h : heap string) :
  readerChanByteSlice_Read (heap_bytes h) =
  (fst (readerChanString_Read h), heap_bytes (snd (readerChanString_Read h))).
Proof.
  rewrite readerChanByteSlice_Read_shared, readerChanString_Read_shared.
  assert (Z1 : list_byte_of_string ""%string = []) by reflexivity.
  assert (Z2 : (fun bytes : list byte => bytes) [] = []) by reflexivity.
  destruct h as [[qu cl] buf p0 tr].
  destruct (le_lt_dec (length buf) (length p0)) as [Hfit|Hlt].
  - destruct qu as [|v q].
    + destruct cl.
      * rewrite (chan_Read_closed _ _ Z1), (chan_Read_closed _ _ Z2);
          try reflexivity; exact Hfit.
      * rewrite (chan_Read_blocks ""%string list_byte_of_string),
          (chan_Read_blocks [] (fun bytes : list byte => bytes));
          try reflexivity; exact Hfit.
    + rewrite (chan_Read_chunk ""%string list_byte_of_string
                 (mkHeap (mkChan (v :: q) cl) buf p0 tr) Hfit eq_refl).
      rewrite (chan_Read_chunk [] (fun bytes : list byte => bytes)
                 (heap_bytes (mkHeap (mkChan (v :: q) cl) buf p0 tr))
                 (v := list_byte_of_string v)
                 (q := map list_byte_of_string q) Hfit eq_refl).
      reflexivity.
  - destruct p0 as [|b0 p0].
    + assert (Hne : buf <> [])
        by (destruct buf; [cbn in Hlt; lia | discriminate]).
      rewrite (chan_Read_zero_cap ""%string list_byte_of_string),
        (chan_Read_zero_cap [] (fun bytes : list byte => bytes));
        try reflexivity; exact Hne.
    + rewrite (chan_Read_undersized ""%string list_byte_of_string),
        (chan_Read_undersized [] (fun bytes : list byte => bytes));
        try reflexivity; try exact Hlt; cbn; lia.
Qed.

Lemma reads_text_as_bytes (dsts : list (list byte)) :
  forall h : heap string,
    reads readerChanByteSlice_Read dsts (heap_bytes h) =
    (fst (reads readerChanString_Read dsts h),
     heap_bytes (snd (reads readerChanString_Read dsts h))).
Proof.
  induction dsts as [|dst dsts IH]; intros h; [reflexivity|].
  cbn [reads]. unfold call.
  change (mkHeap (r_ch (heap_bytes h)) (r_buf (heap_bytes h)) dst
                 (trace (heap_bytes h)))
    with (heap_bytes (mkHeap (r_ch h) (r_buf h) dst (trace h))).
  rewrite Read_text_as_bytes.
  destruct (readerChanString_Read (mkHeap (r_ch h) (r_buf h) dst (trace h)))
    as [[r| e |] h']; cbn [fst snd]; try reflexivity.
  rewrite IH. destruct (reads readerChanString_Read dsts h') as [rs h''].
  reflexivity.
Qed.

(** ** Sequences of clean calls on a closed channel *)

Lemma reads_step {T : Type} (Read : M T (nat * error))
    (dst : list byte) (dsts : list (list byte)) (h h' : heap T)
    (r : nat * error) :
  call Read dst h = (Val r, h') ->
  reads Read (dst :: dsts) h =
    ((Val r, p h') :: fst (reads Read dsts h'), snd (reads Read dsts h')).
Proof.
  intros E. cbn [reads]. rewrite E.
  destruct (reads Read dsts h') as [rs h'']. reflexivity.
Qed.

Section CleanRuns.

Variable T : Type.
Variable zero : T.
Variable to_bytes : T -> list byte.
Hypothesis zero_empty : to_bytes zero = [].

(** After the end of the stream every call returns [(0, io.EOF)]. *)
Lemma reads_after_EOF (dsts : list (list byte)) :
  forall (p0 : list byte) (tr : list event),
    fst (reads (chan_Read zero to_bytes) dsts
               (mkHeap (mkChan [] true) [] p0 tr)) =
    map (fun d : list byte => (Val (0, io_EOF), d)) dsts.
Proof.
  induction dsts as [|d dsts IH]; intros p0 tr; [reflexivity|].
  erewrite reads_returned.
  2:{ unfold call. cbn [r_ch r_buf trace].
      apply (chan_Read_closed zero to_bytes zero_empty
               (mkHeap (mkChan [] true) [] d tr));
        [cbn; lia | reflexivity | reflexivity]. }
  cbn [r_ch r_buf p trace length app skipn map]. rewrite IH. reflexivity.
Qed.

(** A clean call that finds a chunk queued: it returns no error, and
    the bytes it delivers followed by the residual it leaves are the
    residual it found followed by the chunk. *)
Lemma clean_call_chunk (h : heap T) (v : T) (q : list T) :
  clean_call to_bytes h = true ->
  queue (r_ch h) = v :: q ->
  exists (n : nat) (h' : heap T),
    chan_Read zero to_bytes h = (Val (n, nil_error), h')
    /\ firstn n (p h') ++ r_buf h' = r_buf h ++ to_bytes v
    /\ queue (r_ch h') = q
    /\ closed (r_ch h') = closed (r_ch h).
Proof.
  intros Hc Hq. unfold clean_call in Hc. rewrite Hq in Hc.
  destruct (r_buf h) as [|b buf] eqn:Hb.
  - assert (Hfit : length (r_buf h) <= length (p h))
      by (rewrite Hb; cbn; lia).
    rewrite (chan_Read_chunk zero to_bytes h Hfit Hq).
    eexists. eexists. split; [reflexivity|].
    unfold after_recv. rewrite Hb.
    cbn [r_buf p r_ch queue closed length app skipn Nat.add].
    set (n := Nat.min (length (p h)) (length (to_bytes v))).
    assert (Ln : length (firstn n (to_bytes v)) = n)
      by (rewrite length_firstn; unfold n; lia).
    repeat split.
    rewrite firstn_app, Ln, Nat.sub_diag. cbn [firstn].
    rewrite app_nil_r, firstn_all2 by lia. apply firstn_skipn.
  - apply andb_prop in Hc. destruct Hc as [Hfit Hv].
    apply Nat.leb_le in Hfit. apply Nat.eqb_eq in Hv.
    apply length_zero_iff_nil in Hv. rewrite <- Hb in *.
    rewrite (chan_Read_chunk zero to_bytes h Hfit Hq).
    eexists. eexists. split; [reflexivity|].
    unfold after_recv. rewrite Hv.
    cbn [r_buf p r_ch queue closed length skipn firstn app].
    rewrite Nat.min_0_r, Nat.add_0_r. cbn [skipn firstn app].
    repeat split.
    rewrite firstn_app, firstn_all, Nat.sub_diag. cbn [firstn].
    rewrite !app_nil_r. reflexivity.
Qed.

(** A clean call on a closed and drained channel: it delivers the
    residual and returns [io.EOF]. *)
Lemma clean_call_closed (h : heap T) :
  clean_call to_bytes h = true ->
  queue (r_ch h) = [] ->
  closed (r_ch h) = true ->
  exists h' : heap T,
    chan_Read zero to_bytes h = (Val (length (r_buf h), io_EOF), h')
    /\ firstn (length (r_buf h)) (p h') = r_buf h
    /\ r_buf h' = []
    /\ queue (r_ch h') = []
    /\ closed (r_ch h') = true.
Proof.
  intros Hc Hq Hcl.
  assert (Hfit : length (r_buf h) <= length (p h)).
  { unfold clean_call in Hc. destruct (r_buf h) as [|b buf] eqn:Hb.
    - cbn. lia.
    - apply andb_prop in Hc. destruct Hc as [Hfit _].
      apply Nat.leb_le in Hfit. exact Hfit. }
  rewrite (chan_Read_closed zero to_bytes zero_empty h Hfit Hq Hcl).
  eexists. split; [reflexivity|]. cbn [r_buf p r_ch].
  repeat split; try assumption.
  rewrite firstn_app, firstn_all, Nat.sub_diag. cbn [firstn].
  apply app_nil_r.
Qed.

(** A clean run on a closed channel: every call returns; the calls that
    find a chunk queued return no error and the calls after them return
    [io.EOF]; the bytes delivered, then the residual, then the chunks
    still queued are the residual and the chunks the run started with;
    and once there are more calls than chunks nothing is left. *)
Lemma clean_reads (dsts : list (list byte)) :
  forall h : heap T,
    closed (r_ch h) = true ->
    clean_run to_bytes (chan_Read zero to_bytes) dsts h = true ->
    let run := reads (chan_Read zero to_bytes) dsts h in
    map outcome_error (fst run) =
      repeat (Some nil_error)
             (Nat.min (length dsts) (length (queue (r_ch h))))
        ++ repeat (Some io_EOF) (length dsts - length (queue (r_ch h)))
    /\ concat (map delivered (fst run)) ++ r_buf (snd run)
         ++ concat (map to_bytes (queue (r_ch (snd run))))
       = r_buf h ++ concat (map to_bytes (queue (r_ch h)))
    /\ (length (queue (r_ch h)) < length dsts ->
        r_buf (snd run) = [] /\ queue (r_ch (snd run)) = []).
Proof.
  induction dsts as [|d ds IH]; intros h Hcl Hrun run; subst run.
  - cbn [reads fst snd map concat length repeat app Nat.min Nat.sub].
    split; [reflexivity|]. split; [apply app_nil_l|].
    intros H. inversion H.
  - cbn [clean_run] in Hrun. apply andb_prop in Hrun.
    destruct Hrun as [Hcall Hrest]. unfold call in Hrest.
    set (h1 := mkHeap (r_ch h) (r_buf h) d (trace h)) in *.
    destruct (queue (r_ch h)) as [|v q] eqn:Hq.
    + destruct (clean_call_closed h1 Hcall Hq Hcl)
        as [h' [E [Hd [Hb' [Hq' Hcl']]]]].
      rewrite E in Hrest. cbn [snd] in Hrest.
      rewrite (reads_step (chan_Read zero to_bytes) d ds h E).
      specialize (IH h' Hcl' Hrest). cbv zeta in IH.
      rewrite Hq', Hb' in IH. destruct IH as [IHe [IHc IHf]].
      cbn [fst snd map concat length].
      rewrite IHe. cbn [Nat.min Nat.sub repeat app].
      rewrite Nat.min_0_r, Nat.sub_0_r. cbn [repeat app].
      unfold outcome_error at 1. cbn [fst delivered].
      rewrite Hd. change (r_buf h1) with (r_buf h).
      cbn [concat map app] in IHc |- *.
      split; [reflexivity|]. split.
      * rewrite <- app_assoc, IHc. reflexivity.
      * intros _. destruct ds as [|d' ds'].
        -- cbn [reads snd]. split; assumption.
        -- apply IHf. cbn. lia.
    + destruct (clean_call_chunk h1 Hcall Hq)
        as [n [h' [E [Hd [Hq' Hcl']]]]].
      rewrite E in Hrest. cbn [snd] in Hrest.
      rewrite (reads_step (chan_Read zero to_bytes) d ds h E).
      cbn [closed r_ch h1] in Hcl'. rewrite Hcl in Hcl'.
      specialize (IH h' Hcl' Hrest). cbv zeta in IH.
      rewrite Hq' in IH. destruct IH as [IHe [IHc IHf]].
      cbn [fst snd map concat length].
      rewrite IHe. cbn [Nat.min Nat.sub repeat app].
      unfold outcome_error at 1. cbn [fst delivered].
      change (r_buf h1) with (r_buf h) in Hd.
      split; [reflexivity|]. split.
      * rewrite <- app_assoc, IHc, app_assoc, Hd, <- app_assoc.
        reflexivity.
      * intros Hlt. apply IHf. lia.
Qed.

End CleanRuns.

(** ** Order of delivery *)

(** C1, as stated, fails on the code.  (1) The chunk "ab" read into
    two-byte buffers: the first call drains the last byte and returns no
    end-of-stream; the end-of-stream comes with the next call, which
    writes nothing.  (2) The chunk "abc" read into one-byte buffers: the
    second call panics and the bytes "bc" are never delivered.  (3) The
    chunks "abc" and "de" read into a one-byte and then a three-byte
    buffer: the second call copies the residual "bc" and then the chunk
    "de" over it, from the start of the buffer. *)
Lemma C1_counterexample :
  fst (reads readerChanString_Read [[x00; x00]; [x00; x00]]
             (new_adapter (mkChan ["ab"%string] true))) =
    [(Val (2, nil_error), bs "ab"); (Val (0, io_EOF), [x00; x00])]
  /\ fst (reads readerChanString_Read [[x00]; [x00]; [x00]]
                (new_adapter (mkChan ["abc"%string] true))) =
       [(Val (1, nil_error), bs "a");
        (Panics (slice_bounds_out_of_range 1 0), bs "b")]
  /\ concat (map delivered
               (fst (reads readerChanString_Read [[x00]; [x00]; [x00]]
                           (new_adapter (mkChan ["abc"%string] true)))))
     <> bs "abc"
  /\ p (snd (call readerChanByteSlice_Read [x00; x00; x00]
               (mkHeap (mkChan [bs "de"] true) (bs "bc") [] [EvRecv true])))
     = bs "de" ++ [x00]
  /\ firstn 2 (p (snd (call readerChanByteSlice_Read [x00; x00; x00]
                         (mkHeap (mkChan [bs "de"] true) (bs "bc") []
                                 [EvRecv true]))))
     <> bs "bc".
Proof.
  repeat split; try reflexivity; vm_compute; discriminate.
Qed.

(** C1, amended: for every sequence of chunks c1, ..., cn sent and
    then the channel closed, and every sequence of destination buffers
    (of any lengths, 1 included) in which no call finds a residual longer
    than its buffer and no call copies a residual and then receives a
    non-empty chunk: every call returns; the bytes delivered, followed by
    the residual and by the chunks still queued, are c1, ..., cn
    concatenated, so the bytes come out in order, byte for byte; calls 1
    to n return no end-of-stream, and call n+1, the first whose receive
    finds the channel closed and drained, returns it, as every later call
    does; when there are more calls than chunks all of the concatenation
    has been delivered.  Call n+1 delivers what call n left of cn, so it
    is the call that drains the last byte when cn did not fit its buffer,
    and writes no byte otherwise.  This holds for the text adapter and
    for the byte adapter. *)
Theorem C1_clean_runs_deliver_in_order
    (chunks : list string) (bchunks : list (list byte))
    (dsts bdsts : list (list byte)) :
  clean_run list_byte_of_string readerChanString_Read dsts
            (new_adapter (mkChan chunks true)) = true ->
  clean_run (fun bytes : list byte => bytes) readerChanByteSlice_Read bdsts
            (new_adapter (mkChan bchunks true)) = true ->
  let run := reads readerChanString_Read dsts
                   (new_adapter (mkChan chunks true)) in
  let brun := reads readerChanByteSlice_Read bdsts
                    (new_adapter (mkChan bchunks true)) in
  (map outcome_error (fst run) =
     repeat (Some nil_error) (Nat.min (length dsts) (length chunks))
       ++ repeat (Some io_EOF) (length dsts - length chunks)
   /\ concat (map delivered (fst run)) ++ r_buf (snd run)
        ++ concat (map list_byte_of_string (queue (r_ch (snd run))))
      = concat (map list_byte_of_string chunks)
   /\ (length chunks < length dsts ->
       concat (map delivered (fst run))
       = concat (map list_byte_of_string chunks)))
  /\ (map outcome_error (fst brun) =
        repeat (Some nil_error) (Nat.min (length bdsts) (length bchunks))
          ++ repeat (Some io_EOF) (length bdsts - length bchunks)
      /\ concat (map delivered (fst brun)) ++ r_buf (snd brun)
           ++ concat (queue (r_ch (snd brun)))
         = concat bchunks
      /\ (length bchunks < length bdsts ->
          concat (map delivered (fst brun)) = concat bchunks)).
Proof.
  intros Hs Hb run brun. subst run brun.
  rewrite readerChanString_Read_shared in *.
  rewrite readerChanByteSlice_Read_shared in *.
  destruct (clean_reads ""%string list_byte_of_string eq_refl dsts
                        (new_adapter (mkChan chunks true)) eq_refl Hs)
    as [He [Hc Hf]].
  destruct (clean_reads [] (fun bytes : list byte => bytes) eq_refl bdsts
                        (new_adapter (mkChan bchunks true)) eq_refl Hb)
    as [Hbe [Hbc Hbf]].
  cbn [new_adapter r_ch r_buf queue app] in *.
  rewrite map_id in Hbc. rewrite map_id in Hbc.
  split; (split; [assumption|]); (split; [assumption|]).
  - intros Hlt. destruct (Hf Hlt) as [E1 E2].
    rewrite E1, E2 in Hc. cbn [map concat app] in Hc.
    rewrite app_nil_r in Hc. exact Hc.
  - intros Hlt. destruct (Hbf Hlt) as [E1 E2].
    rewrite E1, E2 in Hbc. cbn [map concat app] in Hbc.
    rewrite app_nil_r in Hbc. exact Hbc.
Qed.

(** C1 at the chunk "abc" read into a buffer of 2 bytes and then one of
    1 byte: the second call finds the residual "c", which fits, and the
    channel closed; it delivers "c" with the end-of-stream. *)
Lemma C1_clean_runs_witness :
  map outcome_error
      (fst (reads readerChanString_Read [[x00; x00]; [x00]]
                  (new_adapter (mkChan ["abc"%string] true)))) =
    [Some nil_error; Some io_EOF]
  /\ concat (map delivered
                (fst (reads readerChanString_Read [[x00; x00]; [x00]]
                            (new_adapter (mkChan ["abc"%string] true)))))
       ++ [] ++ []
     = bs "abc"
  /\ (1 < 2 ->
      concat (map delivered
                (fst (reads readerChanString_Read [[x00; x00]; [x00]]
                            (new_adapter (mkChan ["abc"%string] true)))))
      = bs "abc").
Proof.
  exact (proj1 (@C1_clean_runs_deliver_in_order
                  ["abc"%string] [bs "abc"]
                  [[x00; x00]; [x00]] [[x00; x00]; [x00]]
                  eq_refl eq_refl)).
Defined.

(** ** The byte count *)

(** C2: the count returned can exceed the capacity of the buffer.  The
    chunks "abc" and "de" are sent; the first call, into a one-byte
    buffer, leaves the residual "bc"; the second call, into a three-byte
    buffer, copies the residual (2 bytes), receives "de" and copies it to
    the start of the buffer again (2 bytes), and returns 4.  Both
    adapters do so. *)
Theorem C2_count_exceeds_capacity :
  fst (reads readerChanString_Read [[x00]; [x00; x00; x00]]
             (new_adapter (mkChan ["abc"%string; "de"%string] true))) =
    [(Val (1, nil_error), bs "a");
     (Val (4, nil_error), bs "de" ++ [x00])]
  /\ fst (reads readerChanByteSlice_Read [[x00]; [x00; x00; x00]]
                (new_adapter (mkChan [bs "abc"; bs "de"] true))) =
       [(Val (1, nil_error), bs "a");
        (Val (4, nil_error), bs "de" ++ [x00])]
  /\ length [x00; x00; x00] < 4.
Proof.
  repeat split; try reflexivity. cbn. lia.
Qed.

(** The lower bound of C2 holds of the type of the count, and the upper
    bound holds of every call that starts with an empty residual. *)
Lemma count_within_capacity_without_residual (h : heap string) (n : nat)
    (e : error) (h' : heap string) :
  r_buf h = [] ->
  readerChanString_Read h = (Val (n, e), h') ->
  n <= length (p h).
Proof.
  intros Hb E. rewrite readerChanString_Read_shared in E.
  assert (Hfit : length (r_buf h) <= length (p h))
    by (rewrite Hb; cbn; lia).
  destruct (queue (r_ch h)) as [|v q] eqn:Hq.
  - destruct (closed (r_ch h)) eqn:Hc.
    + rewrite chan_Read_closed in E by (assumption || reflexivity).
      inversion E; subst. rewrite Hb. cbn. lia.
    + rewrite chan_Read_blocks in E by assumption. discriminate.
  - rewrite (chan_Read_chunk ""%string list_byte_of_string h Hfit Hq) in E.
    inversion E; subst. rewrite Hb. cbn. apply Nat.le_min_l.
Qed.

(** ** The undersized destination *)

(** C3: with a residual longer than a non-empty buffer the call does not
    return.  The chunk "abc" is read into one-byte buffers: the first
    call delivers "a" and keeps "bc"; the second copies "b" into the
    buffer and panics at [r.buf[len(p):0]], with the residual still
    "bc" and no receive done by that call.  Both adapters do so. *)
Theorem C3_undersized_read_panics :
  reads readerChanString_Read [[x00]; [x00]]
        (new_adapter (mkChan ["abc"%string] true)) =
    ([(Val (1, nil_error), bs "a");
      (Panics (slice_bounds_out_of_range 1 0), bs "b")],
     mkHeap (mkChan [] true) (bs "bc") (bs "b") [EvRecv true])
  /\ reads readerChanByteSlice_Read [[x00]; [x00]]
           (new_adapter (mkChan [bs "abc"] true)) =
       ([(Val (1, nil_error), bs "a");
         (Panics (slice_bounds_out_of_range 1 0), bs "b")],
        mkHeap (mkChan [] true) (bs "bc") (bs "b") [EvRecv true]).
Proof.
  split; reflexivity.
Qed.

(** The same for every state of that branch: any residual longer than a
    non-empty buffer makes the call panic. *)
Lemma undersized_read_always_panics (h : heap string) :
  0 < length (p h) ->
  length (p h) < length (r_buf h) ->
  readerChanString_Read h =
    (Panics (slice_bounds_out_of_range (length (p h)) 0),
     mkHeap (r_ch h) (r_buf h) (firstn (length (p h)) (r_buf h)) (trace h)).
Proof.
  intros Hpos Hlt. rewrite readerChanString_Read_shared.
  apply chan_Read_undersized; assumption.
Qed.

(** ** End of stream *)

(** C4: a call returns end-of-stream if and only if its receive found
    the channel closed and drained and the residual is empty when the
    call ends; so no call returns end-of-stream and leaves a residual.
    A call that panics or blocks returns nothing.  Stated for the text
    adapter and for the byte adapter. *)
Theorem C4_EOF_iff_closed_and_drained :
  (forall h : heap string,
      signals_EOF (fst (readerChanString_Read h)) = true <->
      trace (snd (readerChanString_Read h)) = trace h ++ [EvRecv false] /\
      r_buf (snd (readerChanString_Read h)) = [])
  /\ (forall h : heap (list byte),
         signals_EOF (fst (readerChanByteSlice_Read h)) = true <->
         trace (snd (readerChanByteSlice_Read h)) = trace h ++ [EvRecv false] /\
         r_buf (snd (readerChanByteSlice_Read h)) = []).
Proof.
  split; intros h.
  - rewrite readerChanString_Read_shared.
    apply chan_Read_EOF_iff. reflexivity.
  - rewrite readerChanByteSlice_Read_shared.
    apply chan_Read_EOF_iff. reflexivity.
Qed.

(** C4 at a closed channel that still holds the residual "bc": a
    three-byte buffer takes the residual and the call returns
    end-of-stream with an empty residual. *)
Lemma C4_EOF_witness :
  signals_EOF
    (fst (readerChanString_Read
            (mkHeap (mkChan [] true) (bs "bc") [x00; x00; x00] []))) = true.
Proof.
  apply (proj1 C4_EOF_iff_closed_and_drained
               (mkHeap (mkChan [] true) (bs "bc") [x00; x00; x00] [])).
  split; reflexivity.
Defined.

(** ** The scenario "ab", "cd", close *)

(** C5, as stated, fails on the code: the first call into a three-byte
    buffer receives one chunk only and writes the 2 bytes "ab", not the
    3 bytes "abc". *)
Lemma C5_counterexample :
  fst (call readerChanString_Read [x00; x00; x00]
            (new_adapter (mkChan ["ab"%string; "cd"%string] true))) =
    Val (2, nil_error)
  /\ p (snd (call readerChanString_Read [x00; x00; x00]
               (new_adapter (mkChan ["ab"%string; "cd"%string] true)))) =
     bs "ab" ++ [x00]
  /\ fst (call readerChanString_Read [x00; x00; x00]
               (new_adapter (mkChan ["ab"%string; "cd"%string] true))) <>
     Val (3, nil_error).
Proof.
  repeat split; try reflexivity. vm_compute. discriminate.
Qed.

(** C5, amended: the producer sends "ab", then "cd", then closes the
    channel; reading into three-byte buffers, the first call writes the
    2 bytes "ab" with no end-of-stream, the second call writes the 2
    bytes "cd" with no end-of-stream, and a third call writes no byte and
    returns end-of-stream.  The third byte of each buffer is untouched. *)
Theorem C5_scenario_one_chunk_per_call
    (x1 x2 x3 y1 y2 y3 z1 z2 z3 : byte) :
  fst (reads readerChanString_Read
             [[x1; x2; x3]; [y1; y2; y3]; [z1; z2; z3]]
             (new_adapter (mkChan ["ab"%string; "cd"%string] true))) =
    [(Val (2, nil_error), bs "ab" ++ [x3]);
     (Val (2, nil_error), bs "cd" ++ [y3]);
     (Val (0, io_EOF), [z1; z2; z3])].
Proof. reflexivity. Qed.

(** ** Zero-length chunks *)

(** C6, as stated, fails on the code.  (1) The chunks "abc" and "" are
    sent on a channel left open; after a one-byte read the residual is
    "bc", and the next call, into three bytes, receives the empty chunk
    and returns 2 bytes, not 0.  (2) The chunks "" and "abc" are sent and
    the channel closed; read into one-byte buffers, the third call
    panics and "bc" is never delivered. *)
Lemma C6_counterexample :
  reads readerChanString_Read [[x00]; [x00; x00; x00]]
        (new_adapter (mkChan ["abc"%string; ""%string] false)) =
    ([(Val (1, nil_error), bs "a");
      (Val (2, nil_error), bs "bc" ++ [x00])],
     mkHeap (mkChan [] false) [] (bs "bc" ++ [x00])
            [EvRecv true; EvRecv true])
  /\ fst (reads readerChanString_Read [[x00]; [x00]; [x00]]
                (new_adapter (mkChan [""%string; "abc"%string] true))) =
       [(Val (0, nil_error), [x00]);
        (Val (1, nil_error), bs "a");
        (Panics (slice_bounds_out_of_range 1 0), bs "b")].
Proof.
  split; reflexivity.
Qed.

Lemma delivered_after_EOF (rest : list (list byte)) :
  concat (map delivered
              (map (fun d : list byte => (Val (0, io_EOF), d)) rest)) = [].
Proof.
  induction rest as [|d rest' IH]; [reflexivity|]. cbn. exact IH.
Qed.

(** C6, amended: a call that receives a zero-length chunk returns
    exactly the bytes of the residual it started with (none when the
    residual was empty), with no end-of-stream, and leaves the residual
    empty; and when an empty chunk, then a chunk [c], are sent and the
    channel is closed, and what the second call leaves of [c] fits the
    buffer of the third ([len(c) <= len(d2) + len(d3)]), the first call
    returns 0 bytes, the second delivers the first
    [min(len(d2), len(c))] bytes of [c], both without end-of-stream, and
    the third delivers the rest of [c] with the end-of-stream, so that
    [c] is delivered whole and unchanged; every later call returns 0
    bytes and the end-of-stream. *)
Theorem C6_zero_length_chunk :
  (forall (h : heap string) (q : list string),
      queue (r_ch h) = ""%string :: q ->
      length (r_buf h) <= length (p h) ->
      readerChanString_Read h =
        (Val (length (r_buf h), nil_error),
         mkHeap (mkChan q (closed (r_ch h))) []
                (r_buf h ++ skipn (length (r_buf h)) (p h))
                (trace h ++ [EvRecv true])))
  /\ (forall (c : string) (d1 d2 d3 : list byte)
             (rest : list (list byte)),
         length (list_byte_of_string c) <= length d2 + length d3 ->
         let bytes := list_byte_of_string c in
         let n2 := Nat.min (length d2) (length bytes) in
         let rs := fst (reads readerChanString_Read
                              (d1 :: d2 :: d3 :: rest)
                              (new_adapter (mkChan [""%string; c] true))) in
         rs =
           [(Val (0, nil_error), d1);
            (Val (n2, nil_error), firstn n2 bytes ++ skipn n2 d2);
            (Val (length bytes - n2, io_EOF),
             skipn n2 bytes ++ skipn (length bytes - n2) d3)]
           ++ map (fun d : list byte => (Val (0, io_EOF), d)) rest
         /\ concat (map delivered rs) = bytes).
Proof.
  split.
  - intros h q Hq Hfit. rewrite readerChanString_Read_shared.
    rewrite (chan_Read_chunk ""%string list_byte_of_string h Hfit Hq).
    unfold after_recv. cbn [list_byte_of_string length skipn firstn app].
    rewrite Nat.min_0_r, Nat.add_0_r. reflexivity.
  - intros c d1 d2 d3 rest Hc bytes n2 rs.
    change (length bytes <= length d2 + length d3) in Hc.
    assert (Ln : length (firstn n2 bytes) = n2)
      by (rewrite length_firstn; unfold n2; lia).
    assert (Lr : length (skipn n2 bytes) = length bytes - n2)
      by apply length_skipn.
    assert (E : rs =
              [(Val (0, nil_error), d1);
               (Val (n2, nil_error), firstn n2 bytes ++ skipn n2 d2);
               (Val (length bytes - n2, io_EOF),
                skipn n2 bytes ++ skipn (length bytes - n2) d3)]
              ++ map (fun d : list byte => (Val (0, io_EOF), d)) rest).
    { subst rs. rewrite readerChanString_Read_shared. unfold new_adapter.
      erewrite reads_returned.
      2:{ unfold call. cbn [r_ch r_buf trace].
          apply chan_Read_chunk with (q := [c]); [cbn; lia | reflexivity]. }
      unfold after_recv.
      cbn [r_ch r_buf p trace closed length app skipn firstn
           list_byte_of_string].
      rewrite Nat.min_0_r. cbn [skipn firstn app Nat.add].
      erewrite reads_returned.
      2:{ unfold call. cbn [r_ch r_buf trace].
          apply chan_Read_chunk with (q := []); [cbn; lia | reflexivity]. }
      unfold after_recv.
      cbn [r_ch r_buf p trace closed length app skipn Nat.add].
      fold bytes. fold n2.
      erewrite reads_returned.
      2:{ unfold call. cbn [r_ch r_buf trace].
          apply (chan_Read_closed ""%string list_byte_of_string eq_refl);
            cbn [r_ch r_buf p queue closed];
            [rewrite Lr; unfold n2; lia | reflexivity | reflexivity]. }
      cbn [r_ch r_buf p trace]. rewrite Lr.
      rewrite (reads_after_EOF ""%string list_byte_of_string eq_refl).
      reflexivity. }
    split; [exact E|]. rewrite E.
    rewrite map_app, concat_app.
    rewrite delivered_after_EOF, app_nil_r.
    cbn [map concat delivered firstn app].
    rewrite app_nil_r.
    rewrite firstn_app, Ln, Nat.sub_diag. cbn [firstn].
    rewrite app_nil_r, firstn_all2 by lia.
    rewrite firstn_app, Lr, Nat.sub_diag. cbn [firstn].
    rewrite app_nil_r.
    rewrite (@firstn_all2 byte (length bytes - n2) (skipn n2 bytes))
      by (rewrite Lr; lia).
    apply firstn_skipn.
Qed.

(** C6 at the chunks "" and "abc" read into buffers of 1, 2 and 2 bytes:
    the calls give 0 bytes, then "ab", then "c" with the
    end-of-stream. *)
Lemma C6_zero_length_chunk_witness :
  readerChanString_Read
    (mkHeap (mkChan [""%string; "abc"%string] true) [] [x00; x00; x00] []) =
    (Val (0, nil_error),
     mkHeap (mkChan ["abc"%string] true) [] [x00; x00; x00] [EvRecv true])
  /\ (fst (reads readerChanString_Read
                 [[x00]; [x00; x00]; [x00; x00]]
                 (new_adapter (mkChan [""%string; "abc"%string] true))) =
        [(Val (0, nil_error), [x00]);
         (Val (2, nil_error), bs "ab");
         (Val (1, io_EOF), bs "c" ++ [x00])]
      /\ concat (map delivered
                    (fst (reads readerChanString_Read
                                [[x00]; [x00; x00]; [x00; x00]]
                                (new_adapter
                                   (mkChan [""%string; "abc"%string]
                                           true)))))
         = bs "abc").
Proof.
  split.
  - refine (proj1 C6_zero_length_chunk
                  (mkHeap (mkChan [""%string; "abc"%string] true) []
                          [x00; x00; x00] [])
                  ["abc"%string] _ _).
    + reflexivity.
    + cbn. lia.
  - refine (proj2 C6_zero_length_chunk "abc"%string
                  [x00] [x00; x00] [x00; x00] [] _).
    cbn. lia.
Defined.

(** ** Close *)

(** C7: on each closable adapter, [Close] on an open channel closes it
    and returns nil, and a second [Close] on the same adapter panics
    with "close of closed channel"; the panic is the outcome of the call,
    so it reaches the caller. *)
Theorem C7_second_Close_panics
    (hs : heap string) (hb : heap (list byte)) :
  closed (r_ch hs) = false ->
  closed (r_ch hb) = false ->
  (readerChanString_Close hs =
     (Val nil_error,
      mkHeap (mkChan (queue (r_ch hs)) true) (r_buf hs) (p hs)
             (trace hs ++ [EvClose]))
   /\ readerChanString_Close (snd (readerChanString_Close hs)) =
      (Panics close_of_closed_channel, snd (readerChanString_Close hs)))
  /\ (readerChanByteSlice_Close hb =
        (Val nil_error,
         mkHeap (mkChan (queue (r_ch hb)) true) (r_buf hb) (p hb)
                (trace hb ++ [EvClose]))
      /\ readerChanByteSlice_Close (snd (readerChanByteSlice_Close hb)) =
         (Panics close_of_closed_channel,
          snd (readerChanByteSlice_Close hb))).
Proof.
  intros Hs Hb.
  unfold readerChanString_Close, readerChanByteSlice_Close.
  go_unfold. rewrite Hs, Hb. go_state. repeat split.
Qed.

Lemma C7_second_Close_witness :
  readerChanString_Close
    (snd (readerChanString_Close (new_adapter (mkChan ["ab"%string] false))))
  = (Panics close_of_closed_channel,
     mkHeap (mkChan ["ab"%string] true) [] [] [EvClose]).
Proof.
  exact (proj2 (proj1 (@C7_second_Close_panics
                         (new_adapter (mkChan ["ab"%string] false))
                         (new_adapter (mkChan [bs "ab"] false))
                         eq_refl eq_refl))).
Defined.

(** [Close] on a channel that is already closed panics, whoever closed
    it. *)
Lemma Close_of_closed_panics (h : heap string) :
  closed (r_ch h) = true ->
  readerChanString_Close h = (Panics close_of_closed_channel, h).
Proof.
  intros Hc. unfold readerChanString_Close. go_unfold. rewrite Hc.
  reflexivity.
Qed.

(** ** The front door *)

(** C8: [ReaderFromInterface] returns a reader exactly for the supported
    shapes; for any other input it panics with a
    [ReaderUnrefinableFromInterface] whose field holds the rejected
    input, and so its dynamic type; it never blocks. *)
Theorem C8_dispatch_fault (implements_io_Reader : gotype -> bool)
    (x : iface) :
  match ReaderFromInterface implements_io_Reader x with
  | Val _ => supported implements_io_Reader x = true
  | Panics e =>
      supported implements_io_Reader x = false
      /\ exists fault : ReaderUnrefinableFromInterface,
           e = panic_with fault
           /\ wat fault = x
           /\ dynamic_type (wat fault) = dynamic_type x
  | Blocks => False
  end.
Proof.
  assert (F : forall y : iface,
             exists fault : ReaderUnrefinableFromInterface,
               panic_with {| wat := y |} = panic_with fault
               /\ wat fault = y
               /\ dynamic_type (wat fault) = dynamic_type y)
    by (intros y; exists {| wat := y |}; repeat split).
  unfold ReaderFromInterface, supported.
  destruct x as [|t v]; cbn; [auto|].
  destruct t as [| | |d elem|name]; cbn; auto.
  - destruct (implements_io_Reader t_Buffer); cbn; auto.
  - destruct (implements_io_Reader (t_chan d elem)) eqn:E; cbn.
    + destruct d, elem; auto.
    + destruct d, elem; cbn; auto.
  - destruct (implements_io_Reader (t_other name)) eqn:E; cbn; auto.
Qed.

(** ** Text channels and byte channels *)

(** C9: for every sequence of text chunks, open or closed channel, and
    every sequence of destination buffers, the text adapter gives call by
    call the same outcome (count, error or panic, contents of the buffer)
    as the byte adapter on a channel carrying the byte representations of
    the same chunks. *)
Theorem C9_text_adapter_as_byte_adapter
    (chunks : list string) (cl : bool) (dsts : list (list byte)) :
  fst (reads readerChanString_Read dsts (new_adapter (mkChan chunks cl))) =
  fst (reads readerChanByteSlice_Read dsts
             (new_adapter (mkChan (map list_byte_of_string chunks) cl))).
Proof.
  change (new_adapter (mkChan (map list_byte_of_string chunks) cl))
    with (heap_bytes (new_adapter (mkChan chunks cl))).
  rewrite reads_text_as_bytes. reflexivity.
Qed.

(** ** The zero-length destination *)

(** C10: with a residual that is not empty and a destination of length
    zero, the call returns 0 and no end-of-stream, receives nothing, and
    leaves the residual empty; every later sequence of calls is that of
    an adapter whose residual was empty, whatever the residual held.
    Stated for the text adapter and for the byte adapter. *)
Theorem C10_zero_capacity_discards_residual
    (chs : chan string) (chb : chan (list byte)) (b p0 : list byte)
    (tr : list event) (dsts : list (list byte)) :
  b <> [] ->
  (call readerChanString_Read [] (mkHeap chs b p0 tr) =
     (Val (0, nil_error), mkHeap chs [] [] tr)
   /\ reads readerChanString_Read dsts
            (snd (call readerChanString_Read [] (mkHeap chs b p0 tr))) =
      reads readerChanString_Read dsts (mkHeap chs [] [] tr))
  /\ (call readerChanByteSlice_Read [] (mkHeap chb b p0 tr) =
        (Val (0, nil_error), mkHeap chb [] [] tr)
      /\ reads readerChanByteSlice_Read dsts
               (snd (call readerChanByteSlice_Read [] (mkHeap chb b p0 tr))) =
         reads readerChanByteSlice_Read dsts (mkHeap chb [] [] tr)).
Proof.
  intros Hb. unfold call. go_state.
  rewrite readerChanString_Read_shared, readerChanByteSlice_Read_shared.
  rewrite !chan_Read_zero_cap by (reflexivity || exact Hb).
  go_state. repeat split.
Qed.

Lemma C10_zero_capacity_witness :
  call readerChanString_Read []
       (mkHeap (mkChan ["de"%string] true) (bs "bc") [] [EvRecv true]) =
    (Val (0, nil_error), mkHeap (mkChan ["de"%string] true) [] [] [EvRecv true])
  /\ reads readerChanString_Read [[x00; x00]; [x00; x00]]
           (snd (call readerChanString_Read []
                      (mkHeap (mkChan ["de"%string] true) (bs "bc") []
                              [EvRecv true]))) =
     reads readerChanString_Read [[x00; x00]; [x00; x00]]
           (mkHeap (mkChan ["de"%string] true) [] [] [EvRecv true]).
Proof.
  refine (proj1 (@C10_zero_capacity_discards_residual
                   (mkChan ["de"%string] true) (mkChan [bs "de"] true)
                   (bs "bc") [] [EvRecv true]
                   [[x00; x00]; [x00; x00]] _)).
  discriminate.
Defined.

(** ** Every outcome of a call *)

Section Outcomes.

Variable T : Type.
Variable zero : T.
Variable to_bytes : T -> list byte.
Hypothesis zero_empty : to_bytes zero = [].

(** The five ways a call can go, told apart by the state it starts in. *)
Lemma chan_Read_cases (h : heap T) :
  (length (r_buf h) <= length (p h)
   /\ exists (v : T) (q : list T),
       queue (r_ch h) = v :: q
       /\ chan_Read zero to_bytes h =
            (Val (length (r_buf h)
                  + Nat.min (length (p h)) (length (to_bytes v)),
                  nil_error),
             after_recv h (mkChan q (closed (r_ch h))) (to_bytes v) true))
  \/ (length (r_buf h) <= length (p h)
      /\ queue (r_ch h) = [] /\ closed (r_ch h) = true
      /\ chan_Read zero to_bytes h =
           (Val (length (r_buf h), io_EOF),
            mkHeap (r_ch h) [] (r_buf h ++ skipn (length (r_buf h)) (p h))
                   (trace h ++ [EvRecv false])))
  \/ (length (r_buf h) <= length (p h)
      /\ queue (r_ch h) = [] /\ closed (r_ch h) = false
      /\ chan_Read zero to_bytes h =
           (Blocks,
            mkHeap (r_ch h) [] (r_buf h ++ skipn (length (r_buf h)) (p h))
                   (trace h)))
  \/ (p h = [] /\ r_buf h <> []
      /\ chan_Read zero to_bytes h =
           (Val (0, nil_error), mkHeap (r_ch h) [] [] (trace h)))
  \/ (0 < length (p h) /\ length (p h) < length (r_buf h)
      /\ chan_Read zero to_bytes h =
           (Panics (slice_bounds_out_of_range (length (p h)) 0),
            mkHeap (r_ch h) (r_buf h) (firstn (length (p h)) (r_buf h))
                   (trace h))).
Proof.
  destruct (le_lt_dec (length (r_buf h)) (length (p h))) as [Hfit|Hlt].
  - destruct (queue (r_ch h)) as [|v q] eqn:Hq.
    + destruct (closed (r_ch h)) eqn:Hc.
      * right; left. repeat split; try assumption.
        apply chan_Read_closed; assumption.
      * right; right; left. repeat split; try assumption.
        apply chan_Read_blocks; assumption.
    + left. split; [assumption|]. exists v, q. split; [reflexivity|].
      apply chan_Read_chunk; assumption.
  - destruct (Nat.eq_dec (length (p h)) 0) as [Hz|Hnz].
    + apply length_zero_iff_nil in Hz.
      assert (Hne : r_buf h <> [])
        by (destruct (r_buf h); [cbn in Hlt; lia | discriminate]).
      right; right; right; left. repeat split; try assumption.
      apply chan_Read_zero_cap; assumption.
    + right; right; right; right. repeat split; try lia.
      apply chan_Read_undersized; [lia | assumption].
Qed.

Lemma chan_Read_panics_iff (h : heap T) :
  (exists e : panic, fst (chan_Read zero to_bytes h) = Panics e) <->
  0 < length (p h) /\ length (p h) < length (r_buf h).
Proof.
  destruct (chan_Read_cases h)
    as [[Hfit [v [q [Hq E]]]]
       |[[Hfit [Hq [Hc E]]]
        |[[Hfit [Hq [Hc E]]]
         |[[Hp [Hne E]]|[Hpos [Hlt E]]]]]];
    rewrite E; cbn [fst]; split;
    try (intros [e He]; discriminate);
    try (intros [H1 H2]; exfalso; rewrite ?Hp in *; cbn in *; lia).
  - intros _. split; assumption.
  - intros _. eexists. reflexivity.
Qed.

Lemma chan_Read_blocks_iff (h : heap T) :
  (fst (chan_Read zero to_bytes h) = Blocks <->
   length (r_buf h) <= length (p h)
   /\ queue (r_ch h) = [] /\ closed (r_ch h) = false)
  /\ (fst (chan_Read zero to_bytes h) = Blocks ->
      r_buf (snd (chan_Read zero to_bytes h)) = []
      /\ firstn (length (r_buf h)) (p (snd (chan_Read zero to_bytes h)))
         = r_buf h
      /\ trace (snd (chan_Read zero to_bytes h)) = trace h).
Proof.
  destruct (chan_Read_cases h)
    as [[Hfit [v [q [Hq E]]]]
       |[[Hfit [Hq [Hc E]]]
        |[[Hfit [Hq [Hc E]]]
         |[[Hp [Hne E]]|[Hpos [Hlt E]]]]]];
    rewrite E; cbn [fst snd r_buf p trace].
  - split; [split|]; try discriminate.
    intros [_ [Hq' _]]. congruence.
  - split; [split|]; try discriminate.
    intros [_ [_ Hc']]. congruence.
  - split; [split; auto|]. intros _. repeat split.
    rewrite firstn_app, firstn_all, Nat.sub_diag. cbn. apply app_nil_r.
  - split; [split|]; try discriminate.
    intros [Hfit _]. rewrite Hp in Hfit. destruct (r_buf h); [congruence|].
    cbn in Hfit. lia.
  - split; [split|]; try discriminate.
    intros [Hfit _]. lia.
Qed.

(** A call does at most one receive and never closes the channel. *)
Lemma chan_Read_one_receive (h : heap T) :
  closed (r_ch (snd (chan_Read zero to_bytes h))) = closed (r_ch h)
  /\ ((trace (snd (chan_Read zero to_bytes h)) = trace h
       /\ queue (r_ch (snd (chan_Read zero to_bytes h))) = queue (r_ch h))
      \/ (exists v : T,
             queue (r_ch h)
             = v :: queue (r_ch (snd (chan_Read zero to_bytes h)))
             /\ trace (snd (chan_Read zero to_bytes h))
                = trace h ++ [EvRecv true])
      \/ (queue (r_ch h) = []
          /\ queue (r_ch (snd (chan_Read zero to_bytes h))) = []
          /\ trace (snd (chan_Read zero to_bytes h))
             = trace h ++ [EvRecv false])).
Proof.
  destruct (chan_Read_cases h)
    as [[Hfit [v [q [Hq E]]]]
       |[[Hfit [Hq [Hc E]]]
        |[[Hfit [Hq [Hc E]]]
         |[[Hp [Hne E]]|[Hpos [Hlt E]]]]]];
    rewrite E; unfold after_recv; cbn [snd r_ch queue closed trace];
    (split; [reflexivity|]).
  - right; left. exists v. split; [exact Hq | reflexivity].
  - right; right. auto.
  - left. auto.
  - left. auto.
  - left. auto.
Qed.

(** What a call that returns [io.EOF] has done and left. *)
Lemma chan_Read_EOF_state (h : heap T) (n : nat) :
  fst (chan_Read zero to_bytes h) = Val (n, io_EOF) ->
  n = length (r_buf h)
  /\ length (r_buf h) <= length (p h)
  /\ snd (chan_Read zero to_bytes h) =
       mkHeap (mkChan [] true) []
              (r_buf h ++ skipn (length (r_buf h)) (p h))
              (trace h ++ [EvRecv false]).
Proof.
  destruct (chan_Read_cases h)
    as [[Hfit [v [q [Hq E]]]]
       |[[Hfit [Hq [Hc E]]]
        |[[Hfit [Hq [Hc E]]]
         |[[Hp [Hne E]]|[Hpos [Hlt E]]]]]];
    rewrite E; cbn [fst snd]; intros He; try discriminate.
  inversion He. repeat split; try assumption.
  destruct (r_ch h) as [qu cl]. cbn in Hq, Hc. subst. reflexivity.
Qed.

(** Chunks that fit, on a channel left open: one chunk per call, and
    the call after the last chunk blocks. *)
Lemma reads_fitting_open (chunks : list T) (dsts : list (list byte)) :
  Forall2 (fun c d => length (to_bytes c) <= length d) chunks dsts ->
  forall (d_last p0 : list byte) (tr : list event),
    fst (reads (chan_Read zero to_bytes) (dsts ++ [d_last])
               (mkHeap (mkChan chunks false) [] p0 tr)) =
    one_chunk_per_call (map to_bytes chunks) dsts ++ [(Blocks, d_last)].
Proof.
  induction 1 as [|c d cs ds Hcd Hrest IH]; intros d_last p0 tr.
  - cbn [app reads]. unfold call. cbn [r_ch r_buf trace].
    rewrite (chan_Read_blocks zero to_bytes
               (mkHeap (mkChan [] false) [] d_last tr))
      by (try reflexivity; cbn; lia).
    reflexivity.
  - cbn [app]. erewrite reads_returned.
    2:{ unfold call. cbn [r_ch r_buf trace].
        apply chan_Read_chunk with (q := cs); [cbn; lia | reflexivity]. }
    unfold after_recv. cbn [r_ch r_buf p trace closed length app skipn].
    rewrite Nat.min_r by exact Hcd.
    rewrite skipn_all, firstn_all. cbn [Nat.add].
    rewrite IH. reflexivity.
Qed.

End Outcomes.

Section Deliveries.

Variable T : Type.
Variable zero : T.
Variable to_bytes : T -> list byte.
Hypothesis zero_empty : to_bytes zero = [].

(** With no residual, a call takes one chunk and splits it where the
    buffer ends. *)
Lemma chan_Read_splits_chunk (h : heap T) (v : T) (q : list T) :
  r_buf h = [] ->
  queue (r_ch h) = v :: q ->
  let n := Nat.min (length (p h)) (length (to_bytes v)) in
  let h' := snd (chan_Read zero to_bytes h) in
  fst (chan_Read zero to_bytes h) = Val (n, nil_error)
  /\ firstn n (p h') = firstn n (to_bytes v)
  /\ skipn n (p h') = skipn n (p h)
  /\ firstn n (p h') ++ r_buf h' = to_bytes v
  /\ queue (r_ch h') = q.
Proof.
  intros Hb Hq n h'. subst h'.
  assert (Hfit : length (r_buf h) <= length (p h))
    by (rewrite Hb; cbn; lia).
  rewrite (chan_Read_chunk zero to_bytes h Hfit Hq).
  unfold after_recv. rewrite Hb.
  cbn [fst snd r_buf p r_ch queue length app skipn Nat.add]. fold n.
  assert (Ln : length (firstn n (to_bytes v)) = n)
    by (rewrite length_firstn; unfold n; lia).
  assert (F : firstn n (firstn n (to_bytes v) ++ skipn n (p h))
              = firstn n (to_bytes v)).
  { rewrite firstn_app, Ln, Nat.sub_diag. cbn [firstn].
    rewrite app_nil_r. apply firstn_all2. lia. }
  repeat split.
  - exact F.
  - rewrite skipn_app, Ln, Nat.sub_diag. cbn [skipn].
    rewrite skipn_all2 by lia. reflexivity.
  - rewrite F. apply firstn_skipn.
Qed.

(** Two calls with empty buffers take a chunk out of the channel and
    drop it. *)
Lemma chan_Read_twice_empty (h : heap T) (v : T) (q : list T) :
  r_buf h = [] ->
  queue (r_ch h) = v :: q ->
  to_bytes v <> [] ->
  reads (chan_Read zero to_bytes) [[]; []] h =
    ([(Val (0, nil_error), []); (Val (0, nil_error), [])],
     mkHeap (mkChan q (closed (r_ch h))) [] [] (trace h ++ [EvRecv true])).
Proof.
  intros Hb Hq Hv. cbn [reads]. unfold call.
  rewrite (chan_Read_chunk zero to_bytes
             (mkHeap (r_ch h) (r_buf h) [] (trace h)) (v := v) (q := q))
    by (cbn [r_buf p r_ch]; first [exact Hq | rewrite Hb; cbn; lia]).
  unfold after_recv. rewrite Hb.
  cbn [r_buf p r_ch trace length app skipn firstn Nat.min Nat.add closed].
  rewrite chan_Read_zero_cap
    by (cbn [r_buf p]; first [reflexivity | exact Hv]).
  reflexivity.
Qed.

(** The count of a call that returns. *)
Lemma chan_Read_count (h : heap T) (n : nat) (e : error) :
  fst (chan_Read zero to_bytes h) = Val (n, e) ->
  n <= length (r_buf h) + length (p h)
  /\ n <= 2 * length (p h)
  /\ (r_buf h = [] -> n <= length (p h)).
Proof.
  destruct (chan_Read_cases zero to_bytes zero_empty h)
    as [[Hfit [v [q [Hq E]]]]
       |[[Hfit [Hq [Hc E]]]
        |[[Hfit [Hq [Hc E]]]
         |[[Hp [Hne E]]|[Hpos [Hlt E]]]]]];
    rewrite E; cbn [fst]; intros He; try discriminate;
    inversion He; subst; clear He.
  - pose proof (Nat.le_min_l (length (p h)) (length (to_bytes v))).
    repeat split; try lia. intros Hb. rewrite Hb. cbn. lia.
  - repeat split; lia.
  - repeat split; lia.
Qed.

End Deliveries.

(** ** Further properties of the adapters *)

(** X1: each of the four [Read] methods panics exactly when the
    residual is longer than a buffer that is not empty. *)
Theorem X1_Read_panics_exactly_when_undersized :
  (forall h : heap string,
      (exists e : panic, fst (readerChanString_Read h) = Panics e) <->
      0 < length (p h) /\ length (p h) < length (r_buf h))
  /\ (forall h : heap string,
         (exists e : panic,
             fst (readerChanReadonlyString_Read h) = Panics e) <->
         0 < length (p h) /\ length (p h) < length (r_buf h))
  /\ (forall h : heap (list byte),
         (exists e : panic, fst (readerChanByteSlice_Read h) = Panics e) <->
         0 < length (p h) /\ length (p h) < length (r_buf h))
  /\ (forall h : heap (list byte),
         (exists e : panic,
             fst (readerChanReadonlyByteSlice_Read h) = Panics e) <->
         0 < length (p h) /\ length (p h) < length (r_buf h)).
Proof.
  split; [|split; [|split]]; intros h.
  - rewrite readerChanString_Read_shared.
    apply chan_Read_panics_iff. reflexivity.
  - rewrite readerChanReadonlyString_Read_shared.
    apply chan_Read_panics_iff. reflexivity.
  - rewrite readerChanByteSlice_Read_shared.
    apply chan_Read_panics_iff. reflexivity.
  - rewrite readerChanReadonlyByteSlice_Read_shared.
    apply chan_Read_panics_iff. reflexivity.
Qed.

(** X2: a call blocks exactly when the residual is empty or fits the
    buffer and the channel is open with nothing queued; when it blocks
    with a residual, the residual has already been copied to the buffer
    and cleared, and nothing has been received. *)
Theorem X2_Read_blocks_exactly_on_open_empty_channel :
  (forall h : heap string,
      (fst (readerChanString_Read h) = Blocks <->
       length (r_buf h) <= length (p h)
       /\ queue (r_ch h) = [] /\ closed (r_ch h) = false)
      /\ (fst (readerChanString_Read h) = Blocks ->
          r_buf (snd (readerChanString_Read h)) = []
          /\ firstn (length (r_buf h)) (p (snd (readerChanString_Read h)))
             = r_buf h
          /\ trace (snd (readerChanString_Read h)) = trace h))
  /\ (forall h : heap (list byte),
         (fst (readerChanByteSlice_Read h) = Blocks <->
          length (r_buf h) <= length (p h)
          /\ queue (r_ch h) = [] /\ closed (r_ch h) = false)
         /\ (fst (readerChanByteSlice_Read h) = Blocks ->
             r_buf (snd (readerChanByteSlice_Read h)) = []
             /\ firstn (length (r_buf h))
                       (p (snd (readerChanByteSlice_Read h)))
                = r_buf h
             /\ trace (snd (readerChanByteSlice_Read h)) = trace h)).
Proof.
  split; intros h.
  - rewrite readerChanString_Read_shared.
    apply chan_Read_blocks_iff. reflexivity.
  - rewrite readerChanByteSlice_Read_shared.
    apply chan_Read_blocks_iff. reflexivity.
Qed.

Lemma X2_Read_blocks_witness :
  r_buf (snd (readerChanString_Read
                (mkHeap (mkChan [] false) (bs "bc") [x00; x00; x00] []))) = []
  /\ firstn 2 (p (snd (readerChanString_Read
                         (mkHeap (mkChan [] false) (bs "bc")
                                 [x00; x00; x00] []))))
     = bs "bc"
  /\ trace (snd (readerChanString_Read
                   (mkHeap (mkChan [] false) (bs "bc") [x00; x00; x00] [])))
     = [].
Proof.
  apply (proj2 (proj1 X2_Read_blocks_exactly_on_open_empty_channel
                      (mkHeap (mkChan [] false) (bs "bc")
                              [x00; x00; x00] []))).
  reflexivity.
Defined.

(** X3: a call never closes the channel and does at most one receive:
    either the channel and the record of operations are as before, or
    the head of the queue was taken, or the channel was found closed and
    drained. *)
Theorem X3_Read_receives_at_most_once :
  (forall h : heap string,
      closed (r_ch (snd (readerChanString_Read h))) = closed (r_ch h)
      /\ ((trace (snd (readerChanString_Read h)) = trace h
           /\ queue (r_ch (snd (readerChanString_Read h)))
              = queue (r_ch h))
          \/ (exists v : string,
                 queue (r_ch h)
                 = v :: queue (r_ch (snd (readerChanString_Read h)))
                 /\ trace (snd (readerChanString_Read h))
                    = trace h ++ [EvRecv true])
          \/ (queue (r_ch h) = []
              /\ queue (r_ch (snd (readerChanString_Read h))) = []
              /\ trace (snd (readerChanString_Read h))
                 = trace h ++ [EvRecv false])))
  /\ (forall h : heap (list byte),
         closed (r_ch (snd (readerChanByteSlice_Read h))) = closed (r_ch h)
         /\ ((trace (snd (readerChanByteSlice_Read h)) = trace h
              /\ queue (r_ch (snd (readerChanByteSlice_Read h)))
                 = queue (r_ch h))
             \/ (exists v : list byte,
                    queue (r_ch h)
                    = v :: queue (r_ch (snd (readerChanByteSlice_Read h)))
                    /\ trace (snd (readerChanByteSlice_Read h))
                       = trace h ++ [EvRecv true])
             \/ (queue (r_ch h) = []
                 /\ queue (r_ch (snd (readerChanByteSlice_Read h))) = []
                 /\ trace (snd (readerChanByteSlice_Read h))
                    = trace h ++ [EvRecv false]))).
Proof.
  split; intros h.
  - rewrite readerChanString_Read_shared.
    apply chan_Read_one_receive. reflexivity.
  - rewrite readerChanByteSlice_Read_shared.
    apply chan_Read_one_receive. reflexivity.
Qed.

(** X4: a call that starts with no residual and finds a chunk queued
    returns [min(len(p), len(chunk))] and no error; that many bytes at
    the front of the buffer are the front of the chunk, the rest of the
    buffer is untouched, and the bytes delivered followed by the new
    residual are the chunk. *)
Theorem X4_chunk_split_at_buffer_boundary :
  (forall (h : heap string) (v : string) (q : list string),
      r_buf h = [] ->
      queue (r_ch h) = v :: q ->
      let n := Nat.min (length (p h)) (length (list_byte_of_string v)) in
      let h' := snd (readerChanString_Read h) in
      fst (readerChanString_Read h) = Val (n, nil_error)
      /\ firstn n (p h') = firstn n (list_byte_of_string v)
      /\ skipn n (p h') = skipn n (p h)
      /\ firstn n (p h') ++ r_buf h' = list_byte_of_string v
      /\ queue (r_ch h') = q)
  /\ (forall (h : heap (list byte)) (v : list byte) (q : list (list byte)),
         r_buf h = [] ->
         queue (r_ch h) = v :: q ->
         let n := Nat.min (length (p h)) (length v) in
         let h' := snd (readerChanByteSlice_Read h) in
         fst (readerChanByteSlice_Read h) = Val (n, nil_error)
         /\ firstn n (p h') = firstn n v
         /\ skipn n (p h') = skipn n (p h)
         /\ firstn n (p h') ++ r_buf h' = v
         /\ queue (r_ch h') = q).
Proof.
  split; intros h v q Hb Hq.
  - rewrite readerChanString_Read_shared.
    exact (chan_Read_splits_chunk ""%string list_byte_of_string h Hb Hq).
  - rewrite readerChanByteSlice_Read_shared.
    exact (chan_Read_splits_chunk [] (fun bytes : list byte => bytes)
                                  h Hb Hq).
Qed.

Lemma X4_chunk_split_witness :
  fst (readerChanString_Read
         (mkHeap (mkChan ["abcde"%string] false) [] [x00; x00] [])) =
    Val (2, nil_error)
  /\ firstn 2 (p (snd (readerChanString_Read
                         (mkHeap (mkChan ["abcde"%string] false) []
                                 [x00; x00] [])))) = bs "ab"
  /\ r_buf (snd (readerChanString_Read
                   (mkHeap (mkChan ["abcde"%string] false) []
                           [x00; x00] []))) = bs "cde".
Proof.
  pose proof (proj1 X4_chunk_split_at_buffer_boundary
                (mkHeap (mkChan ["abcde"%string] false) [] [x00; x00] [])
                "abcde"%string [] eq_refl eq_refl) as [H1 [H2 [_ [H4 _]]]].
  split; [exact H1 | split; [exact H2 |]].
  cbv zeta in H4. rewrite H2 in H4.
  exact (app_inv_head (firstn 2 (bs "abcde")) _ (bs "cde") H4).
Defined.

(** X5: once a call has returned [io.EOF], every later call returns
    [(0, io.EOF)] and leaves its buffer as it was. *)
Theorem X5_EOF_is_sticky :
  (forall (h : heap string) (n : nat) (dsts : list (list byte)),
      fst (readerChanString_Read h) = Val (n, io_EOF) ->
      fst (reads readerChanString_Read dsts (snd (readerChanString_Read h)))
      = map (fun d : list byte => (Val (0, io_EOF), d)) dsts)
  /\ (forall (h : heap (list byte)) (n : nat) (dsts : list (list byte)),
         fst (readerChanByteSlice_Read h) = Val (n, io_EOF) ->
         fst (reads readerChanByteSlice_Read dsts
                    (snd (readerChanByteSlice_Read h)))
         = map (fun d : list byte => (Val (0, io_EOF), d)) dsts).
Proof.
  split; intros h n dsts He.
  - rewrite readerChanString_Read_shared in *.
    destruct (chan_Read_EOF_state ""%string list_byte_of_string eq_refl
                                  h He) as [_ [_ E]].
    rewrite E. apply reads_after_EOF. reflexivity.
  - rewrite readerChanByteSlice_Read_shared in *.
    destruct (chan_Read_EOF_state [] (fun bytes : list byte => bytes)
                                  eq_refl h He) as [_ [_ E]].
    rewrite E. apply reads_after_EOF. reflexivity.
Qed.

Lemma X5_EOF_is_sticky_witness :
  fst (reads readerChanString_Read [[x00]; [x00; x00]]
             (snd (readerChanString_Read
                     (mkHeap (mkChan [] true) (bs "bc")
                             [x00; x00; x00] []))))
  = [(Val (0, io_EOF), [x00]); (Val (0, io_EOF), [x00; x00])].
Proof.
  exact (proj1 X5_EOF_is_sticky
               (mkHeap (mkChan [] true) (bs "bc") [x00; x00; x00] [])
               2 [[x00]; [x00; x00]] eq_refl).
Defined.

(** X6: the call that returns [io.EOF] delivers exactly the residual it
    started with: the count is the length of the residual, the front of
    the buffer holds the residual, and the rest of the buffer is
    untouched. *)
Theorem X6_EOF_call_delivers_the_residual :
  (forall (h : heap string) (n : nat),
      fst (readerChanString_Read h) = Val (n, io_EOF) ->
      n = length (r_buf h)
      /\ n <= length (p h)
      /\ firstn n (p (snd (readerChanString_Read h))) = r_buf h
      /\ skipn n (p (snd (readerChanString_Read h))) = skipn n (p h))
  /\ (forall (h : heap (list byte)) (n : nat),
         fst (readerChanByteSlice_Read h) = Val (n, io_EOF) ->
         n = length (r_buf h)
         /\ n <= length (p h)
         /\ firstn n (p (snd (readerChanByteSlice_Read h))) = r_buf h
         /\ skipn n (p (snd (readerChanByteSlice_Read h))) = skipn n (p h)).
Proof.
  assert (F : forall b d : list byte,
             firstn (length b) (b ++ skipn (length b) d) = b
             /\ skipn (length b) (b ++ skipn (length b) d)
                = skipn (length b) d).
  { intros b d. split.
    - rewrite firstn_app, firstn_all, Nat.sub_diag. cbn. apply app_nil_r.
    - rewrite skipn_app, skipn_all, Nat.sub_diag. reflexivity. }
  split; intros h n He.
  - rewrite readerChanString_Read_shared in *.
    destruct (chan_Read_EOF_state ""%string list_byte_of_string eq_refl
                                  h He) as [Hn [Hfit E]].
    rewrite E. subst n. cbn [p].
    destruct (F (r_buf h) (p h)) as [F1 F2]. auto.
  - rewrite readerChanByteSlice_Read_shared in *.
    destruct (chan_Read_EOF_state [] (fun bytes : list byte => bytes)
                                  eq_refl h He) as [Hn [Hfit E]].
    rewrite E. subst n. cbn [p].
    destruct (F (r_buf h) (p h)) as [F1 F2]. auto.
Qed.

Lemma X6_EOF_call_witness :
  2 = length (bs "bc")
  /\ 2 <= length [x00; x00; x00]
  /\ firstn 2 (p (snd (readerChanString_Read
                         (mkHeap (mkChan [] true) (bs "bc")
                                 [x00; x00; x00] []))))
     = bs "bc"
  /\ skipn 2 (p (snd (readerChanString_Read
                        (mkHeap (mkChan [] true) (bs "bc")
                                [x00; x00; x00] []))))
     = [x00].
Proof.
  exact (proj1 X6_EOF_call_delivers_the_residual
               (mkHeap (mkChan [] true) (bs "bc") [x00; x00; x00] [])
               2 eq_refl).
Defined.

(** X7: after a call has returned [io.EOF], [Close] on the same adapter
    panics with "close of closed channel": the end of the stream is only
    seen on a channel that is already closed. *)
Theorem X7_Close_after_EOF_panics :
  (forall (h : heap string) (n : nat),
      fst (readerChanString_Read h) = Val (n, io_EOF) ->
      readerChanString_Close (snd (readerChanString_Read h)) =
        (Panics close_of_closed_channel, snd (readerChanString_Read h)))
  /\ (forall (h : heap (list byte)) (n : nat),
         fst (readerChanByteSlice_Read h) = Val (n, io_EOF) ->
         readerChanByteSlice_Close (snd (readerChanByteSlice_Read h)) =
           (Panics close_of_closed_channel,
            snd (readerChanByteSlice_Read h))).
Proof.
  split; intros h n He.
  - rewrite readerChanString_Read_shared in *.
    destruct (chan_Read_EOF_state ""%string list_byte_of_string eq_refl
                                  h He) as [_ [_ E]].
    rewrite E. reflexivity.
  - rewrite readerChanByteSlice_Read_shared in *.
    destruct (chan_Read_EOF_state [] (fun bytes : list byte => bytes)
                                  eq_refl h He) as [_ [_ E]].
    rewrite E. reflexivity.
Qed.

Lemma X7_Close_after_EOF_witness :
  fst (readerChanString_Close
         (snd (readerChanString_Read
                 (mkHeap (mkChan [] true) [] [x00] []))))
  = Panics close_of_closed_channel.
Proof.
  exact (f_equal fst
           (proj1 X7_Close_after_EOF_panics
                  (mkHeap (mkChan [] true) [] [x00] []) 0 eq_refl)).
Defined.

(** X8: [Close] loses no chunk.  On an adapter with no residual and an
    open channel, reading into buffers that hold the queued chunks
    delivers them one per call and then blocks; after [Close] the same
    calls deliver the same chunks and the last one returns
    [(0, io.EOF)] instead. *)
Theorem X8_Close_keeps_queued_chunks :
  (forall (h : heap string) (dsts : list (list byte)) (d_last : list byte),
      closed (r_ch h) = false ->
      r_buf h = [] ->
      Forall2 (fun c d => length (list_byte_of_string c) <= length d)
              (queue (r_ch h)) dsts ->
      fst (reads readerChanString_Read (dsts ++ [d_last]) h) =
        one_chunk_per_call (map list_byte_of_string (queue (r_ch h))) dsts
          ++ [(Blocks, d_last)]
      /\ fst (reads readerChanString_Read (dsts ++ [d_last])
                    (snd (readerChanString_Close h))) =
         one_chunk_per_call (map list_byte_of_string (queue (r_ch h))) dsts
           ++ [(Val (0, io_EOF), d_last)])
  /\ (forall (h : heap (list byte)) (dsts : list (list byte))
             (d_last : list byte),
         closed (r_ch h) = false ->
         r_buf h = [] ->
         Forall2 (fun c d => length c <= length d) (queue (r_ch h)) dsts ->
         fst (reads readerChanByteSlice_Read (dsts ++ [d_last]) h) =
           one_chunk_per_call (queue (r_ch h)) dsts ++ [(Blocks, d_last)]
         /\ fst (reads readerChanByteSlice_Read (dsts ++ [d_last])
                       (snd (readerChanByteSlice_Close h))) =
            one_chunk_per_call (queue (r_ch h)) dsts
              ++ [(Val (0, io_EOF), d_last)]).
Proof.
  split; intros [[qu cl] buf p0 tr] dsts d_last Hc Hb Hfit;
    cbn [r_ch r_buf queue closed] in *; subst cl buf.
  - rewrite readerChanString_Read_shared. split.
    + apply reads_fitting_open; assumption.
    + apply reads_fitting; [reflexivity | assumption].
  - rewrite readerChanByteSlice_Read_shared. split.
    + rewrite <- (map_id qu) at 2. apply reads_fitting_open; assumption.
    + rewrite <- (map_id qu) at 2.
      apply reads_fitting; [reflexivity | assumption].
Qed.

Lemma X8_Close_keeps_queued_chunks_witness :
  fst (reads readerChanString_Read ([[x00; x00]; [x00; x00]] ++ [[x00]])
             (new_adapter (mkChan ["ab"%string; "cd"%string] false))) =
    [(Val (2, nil_error), bs "ab"); (Val (2, nil_error), bs "cd");
     (Blocks, [x00])]
  /\ fst (reads readerChanString_Read ([[x00; x00]; [x00; x00]] ++ [[x00]])
                (snd (readerChanString_Close
                        (new_adapter
                           (mkChan ["ab"%string; "cd"%string] false))))) =
     [(Val (2, nil_error), bs "ab"); (Val (2, nil_error), bs "cd");
      (Val (0, io_EOF), [x00])].
Proof.
  refine (proj1 X8_Close_keeps_queued_chunks
                (new_adapter (mkChan ["ab"%string; "cd"%string] false))
                [[x00; x00]; [x00; x00]] [x00] eq_refl eq_refl _).
  repeat constructor.
Defined.

(** X9: two calls in a row with buffers of length zero, on an adapter
    with no residual and a non-empty chunk queued, both return
    [(0, nil)]; the first takes the chunk out of the channel as the
    residual and the second empties the residual, so the chunk is gone
    from the channel and from the adapter without a byte delivered. *)
Theorem X9_two_empty_reads_drop_a_chunk :
  (forall (h : heap string) (v : string) (q : list string),
      r_buf h = [] ->
      queue (r_ch h) = v :: q ->
      list_byte_of_string v <> [] ->
      reads readerChanString_Read [[]; []] h =
        ([(Val (0, nil_error), []); (Val (0, nil_error), [])],
         mkHeap (mkChan q (closed (r_ch h))) [] []
                (trace h ++ [EvRecv true])))
  /\ (forall (h : heap (list byte)) (v : list byte) (q : list (list byte)),
         r_buf h = [] ->
         queue (r_ch h) = v :: q ->
         v <> [] ->
         reads readerChanByteSlice_Read [[]; []] h =
           ([(Val (0, nil_error), []); (Val (0, nil_error), [])],
            mkHeap (mkChan q (closed (r_ch h))) [] []
                   (trace h ++ [EvRecv true]))).
Proof.
  split; intros h v q Hb Hq Hv.
  - rewrite readerChanString_Read_shared.
    apply chan_Read_twice_empty with (v := v); assumption.
  - rewrite readerChanByteSlice_Read_shared.
    apply chan_Read_twice_empty with (v := v); assumption.
Qed.

Lemma X9_two_empty_reads_witness :
  reads readerChanString_Read [[]; []]
        (new_adapter (mkChan ["abc"%string; "de"%string] true)) =
    ([(Val (0, nil_error), []); (Val (0, nil_error), [])],
     mkHeap (mkChan ["de"%string] true) [] [] [EvRecv true]).
Proof.
  refine (proj1 X9_two_empty_reads_drop_a_chunk
                (new_adapter (mkChan ["abc"%string; "de"%string] true))
                "abc"%string ["de"%string] eq_refl eq_refl _).
  discriminate.
Defined.

(** X10: the receive-only adapters behave as the closable ones.  From
    any state and for any sequence of buffers, the receive-only text
    adapter gives the outcomes and leaves the state of the text adapter,
    and the receive-only byte adapter, on the channel carrying the bytes
    of the same chunks, gives the same outcomes too. *)
Theorem X10_receive_only_adapters_agree
    (h : heap string) (dsts : list (list byte)) :
  reads readerChanReadonlyString_Read dsts h =
    reads readerChanString_Read dsts h
  /\ reads readerChanReadonlyByteSlice_Read dsts (heap_bytes h) =
       (fst (reads readerChanString_Read dsts h),
        heap_bytes (snd (reads readerChanString_Read dsts h))).
Proof.
  split.
  - rewrite readerChanReadonlyString_Read_shared,
      readerChanString_Read_shared. reflexivity.
  - rewrite readerChanReadonlyByteSlice_Read_shared,
      <- readerChanByteSlice_Read_shared.
    apply reads_text_as_bytes.
Qed.

(** X11: the case [io.Reader] of the switch comes before the cases of
    [bytes.Buffer] and of the channels: a value whose dynamic type has a
    [Read] method, and is neither [string] nor [[]byte], is returned as
    it is and is not wrapped. *)
Theorem X11_io_Reader_passes_through
    (implements_io_Reader : gotype -> bool) (t : gotype) (v : denote t) :
  implements_io_Reader t = true ->
  t <> t_string ->
  t <> t_bytes ->
  ReaderFromInterface implements_io_Reader (box t v) =
    Val (the_reader (box t v)).
Proof.
  intros Hi Hs Hb. unfold ReaderFromInterface.
  destruct t; try congruence; cbn; rewrite Hi; reflexivity.
Qed.

Lemma X11_io_Reader_passes_through_witness :
  ReaderFromInterface
    (fun t => match t with t_other _ => true | _ => false end)
    (@box (t_other "*os.File") 7) =
  Val (the_reader (@box (t_other "*os.File") 7)).
Proof.
  refine (@X11_io_Reader_passes_through
            (fun t => match t with t_other _ => true | _ => false end)
            (t_other "*os.File") 7 eq_refl _ _); discriminate.
Defined.

(** X12: the count of a call that returns is at most the length of the
    residual it started with plus the length of the buffer, and at most
    twice the length of the buffer; a call that starts with no residual
    returns at most the length of the buffer. *)
Theorem X12_count_bounds :
  (forall (h : heap string) (n : nat) (e : error),
      fst (readerChanString_Read h) = Val (n, e) ->
      n <= length (r_buf h) + length (p h)
      /\ n <= 2 * length (p h)
      /\ (r_buf h = [] -> n <= length (p h)))
  /\ (forall (h : heap (list byte)) (n : nat) (e : error),
         fst (readerChanByteSlice_Read h) = Val (n, e) ->
         n <= length (r_buf h) + length (p h)
         /\ n <= 2 * length (p h)
         /\ (r_buf h = [] -> n <= length (p h))).
Proof.
  split; intros h n e He.
  - rewrite readerChanString_Read_shared in He.
    exact (chan_Read_count ""%string list_byte_of_string eq_refl h He).
  - rewrite readerChanByteSlice_Read_shared in He.
    exact (chan_Read_count [] (fun bytes : list byte => bytes)
                           eq_refl h He).
Qed.

Lemma X12_count_bounds_witness :
  4 <= length (bs "bc") + length [x00; x00; x00]
  /\ 4 <= 2 * length [x00; x00; x00]
  /\ (bs "bc" = [] -> 4 <= length [x00; x00; x00]).
Proof.
  exact (proj1 X12_count_bounds
               (mkHeap (mkChan ["de"%string] true) (bs "bc")
                       [x00; x00; x00] [EvRecv true])
               4 nil_error eq_refl).
Defined.
